(** * photo_automation.py: bracket grouping, batch slicing, file discovery

    A shallow embedding of the list-processing core of
    [photo_automation.py] and the properties its specification states.

    Conventions.
    - A Python [str] is a [string]; [<] on [str] is the lexicographic order
      on character codes ([String.le]), and [str.lower()] / [str.upper()]
      act on the ASCII letters.
    - A Python [int] is a [Z]; [len] results are [nat], injected into [Z]
      where the source compares them with an [int].
    - Python lists that are mutated through a reference live in an object
      store ([heap]); lists only read or freshly built are values.
    - [os.path] follows [posixpath].  On Windows, where it is [ntpath],
      paths are spelled differently and [fnmatch] compares names without
      regard to case; the second is modelled ([fnmatch_folds_case]), the
      first is not.
    - A call of the operating system that can raise an exception the
      program does not catch has an optional result in [OS]; [None] is
      the exception, which then leaves the function that made the call.
    - The logger and the clock are outside the model. *)

From Stdlib Require Import ZArith Ascii.
From stdpp Require Import base list sorting strings gmap.

Local Open Scope Z_scope.

(** ** State-and-exception computations *)

(** [None] is a raised Python exception. *)
Definition St (S A : Type) : Type := S → option (A * S).

Definition ret {S A} (a : A) : St S A := λ s, Some (a, s).

Definition bind {S A B} (m : St S A) (k : A → St S B) : St S B :=
  λ s, match m s with
       | Some (a, s') => k a s'
       | None => None
       end.

Definition raise {S A} : St S A := λ _, None.

Declare Scope py_scope.
Delimit Scope py_scope with py.
Notation "x <- m ;; k" := (bind m (λ x, k))
  (at level 100, m at next level, right associativity) : py_scope.
Notation "m ;; k" := (bind m (λ _, k))
  (at level 100, right associativity) : py_scope.

(** ** Python object store *)

(** Addresses of list objects. *)
Abbreviation loc := nat (only parsing).

(** The two shapes of list this program builds: [List[str]] and
    [List[List[str]]] (a list of references to [List[str]] objects). *)
Inductive pyobj :=
| PyStrs (items : list string)
| PyRefs (items : list loc).

(** The store: the object at address [a] is the [a]-th entry.  Allocation
    appends, so the fresh address is [length h]. *)
Abbreviation heap := (list pyobj) (only parsing).

(** Computations over the store; [None] is a [TypeError] (an address that
    does not hold the expected kind of object). *)
Definition M (A : Type) : Type := St heap A.

(** [[]] for a list of strings *)
Definition new_strs : M loc := λ h, Some (length h, h ++ [PyStrs []]).
(** [[]] for a list of lists *)
Definition new_refs : M loc := λ h, Some (length h, h ++ [PyRefs []]).

Definition get_strs (l : loc) : M (list string) :=
  λ h, match h !! l with
       | Some (PyStrs xs) => Some (xs, h)
       | _ => None
       end.

Definition get_refs (l : loc) : M (list loc) :=
  λ h, match h !! l with
       | Some (PyRefs rs) => Some (rs, h)
       | _ => None
       end.

Definition put (l : loc) (o : pyobj) : M unit := λ h, Some (tt, <[l:=o]> h).

(** [sorted(xs)] and the contents left by [xs.sort()] *)
Definition sorted (xs : list string) : list string := merge_sort String.le xs.

(** [l.sort()] *)
Definition list_sort (l : loc) : M unit :=
  (xs <- get_strs l ;; put l (PyStrs (sorted xs)))%py.

(** [l.append(x)] for a string [x] *)
Definition list_append (l : loc) (x : string) : M unit :=
  (xs <- get_strs l ;; put l (PyStrs (xs ++ [x])))%py.

(** [l.append(r)] for a list object [r] *)
Definition refs_append (l : loc) (r : loc) : M unit :=
  (rs <- get_refs l ;; put l (PyRefs (rs ++ [r])))%py.

(** [len(l)] *)
Definition list_len (l : loc) : M nat :=
  (xs <- get_strs l ;; ret (length xs))%py.

(** The value held by a [List[str]] object. *)
Definition read_strs (h : heap) (l : loc) : option (list string) :=
  match h !! l with
  | Some (PyStrs xs) => Some xs
  | _ => None
  end.

(** The value held by a [List[List[str]]] object: follow every reference. *)
Definition read_sets (h : heap) (l : loc) : option (list (list string)) :=
  match h !! l with
  | Some (PyRefs rs) => mapM (read_strs h) rs
  | _ => None
  end.

(** ** Strings and [os.path] *)

Definition ascii_lower (a : ascii) : ascii :=
  let n := N_of_ascii a in
  if (65 <=? n)%N && (n <=? 90)%N then ascii_of_N (n + 32) else a.

Definition ascii_upper (a : ascii) : ascii :=
  let n := N_of_ascii a in
  if (97 <=? n)%N && (n <=? 122)%N then ascii_of_N (n - 32) else a.

Fixpoint str_map (f : ascii → ascii) (s : string) : string :=
  match s with
  | EmptyString => EmptyString
  | String a s' => String (f a) (str_map f s')
  end.

(** [s.lower()], [s.upper()] *)
Definition lower : string → string := str_map ascii_lower.
Definition upper : string → string := str_map ascii_upper.

(** The double-quote character, as a string. *)
Definition dquote : string := String (ascii_of_nat 34) EmptyString.

(** [s.endswith(t)] *)
Fixpoint endswith (s t : string) : bool :=
  String.eqb s t ||
  match s with
  | EmptyString => false
  | String _ s' => endswith s' t
  end.

(** [s.startswith(t)] *)
Definition startswith (s t : string) : bool := String.prefix t s.

(** [(p[:i], p[i+1:])] for [i = p.rfind(c)], when [c] occurs in [p]. *)
Fixpoint cut_last (c : ascii) (p : string) : option (string * string) :=
  match p with
  | EmptyString => None
  | String a p' =>
      match cut_last c p' with
      | Some (b, t) => Some (String a b, t)
      | None => if Ascii.eqb a c then Some (EmptyString, p') else None
      end
  end.

(** [s.rstrip('/')] *)
Fixpoint rstrip_sep (s : string) : string :=
  match s with
  | EmptyString => EmptyString
  | String a s' =>
      let r := rstrip_sep s' in
      if String.eqb r EmptyString && Ascii.eqb a "/" then EmptyString else String a r
  end.

(** [s.lstrip('.')] together with the dots removed *)
Fixpoint lstrip_dots (s : string) : string * string :=
  match s with
  | String a s' =>
      if Ascii.eqb a "."
      then let (dots, r) := lstrip_dots s' in (String a dots, r)
      else (EmptyString, s)
  | EmptyString => (EmptyString, EmptyString)
  end.

(** [os.path.join(a, b)] *)
Definition join (a b : string) : string :=
  if startswith b "/" then b
  else if String.eqb a EmptyString || endswith a "/" then a +:+ b
  else a +:+ "/" +:+ b.

(** [os.path.split(p)]: head and tail around the last slash, trailing
    slashes stripped from a head that is not all slashes. *)
Definition split (p : string) : string * string :=
  let (head, tail) :=
    match cut_last "/" p with
    | Some (b, t) => (b +:+ "/", t)
    | None => (EmptyString, p)
    end in
  (if String.eqb (rstrip_sep head) EmptyString then head else rstrip_sep head, tail).

(** [os.path.basename(p)] *)
Definition basename (p : string) : string :=
  match cut_last "/" p with
  | Some (_, t) => t
  | None => p
  end.

(** [os.path.splitext(p)]: the extension starts at the last dot of the last
    component, provided a character other than a dot precedes it there. *)
Definition splitext (p : string) : string * string :=
  let (head, name) :=
    match cut_last "/" p with
    | Some (b, t) => (b +:+ "/", t)
    | None => (EmptyString, p)
    end in
  let (dots, rest) := lstrip_dots name in
  match cut_last "." rest with
  | Some (b, e) => (head +:+ dots +:+ b, "." +:+ e)
  | None => (p, EmptyString)
  end.

(** ** Slices and ranges *)

(** [xs[i:j]] *)
Definition py_slice {A} (xs : list A) (i j : Z) : list A :=
  let n := Z.of_nat (length xs) in
  let clamp k := if k <? 0 then Z.max 0 (k + n) else Z.min k n in
  take (Z.to_nat (clamp j - clamp i)) (drop (Z.to_nat (clamp i)) xs).

(** [range(start, stop, step)] for [step <> 0] *)
Definition py_range (start stop step : Z) : list Z :=
  let len := if 0 <? step then (stop - start + step - 1) / step
             else (start - stop - step - 1) / (- step) in
  map (λ k, start + Z.of_nat k * step) (seq 0 (Z.to_nat len)).

(** ** File discovery *)

Definition SUPPORTED_IMAGE_FORMATS : list string :=
  [".jpg"; ".jpeg"; ".tif"; ".tiff"; ".raw"; ".cr2"; ".nef"; ".arw"].

(** Contents of a directory: named entries in the order the operating
    system happens to enumerate them.  Symbolic links are not modelled. *)
#[warnings="-register-all"]
Inductive node :=
| File
| Dir (entries : list (string * node)).

Definition is_dir (n : node) : bool :=
  match n with Dir _ => true | File => false end.

Definition entries_of (n : node) : list (string * node) :=
  match n with Dir es => es | File => [] end.

(** [os.listdir] *)
Definition listdir (n : node) : list string := (entries_of n).*1.

(** The triples [os.walk(top)] yields, top-down, for the directory [n]
    found at path [top]; nothing for a path that is not a directory. *)
Fixpoint walk (top : string) (n : node) : list (string * list string * list string) :=
  match n with
  | File => []
  | Dir es =>
      (top, (filter (λ e, is_dir e.2 = true) es).*1,
            (filter (λ e, is_dir e.2 = false) es).*1)
      :: flat_map (λ e, walk (join top e.1) e.2) es
  end.

(** [os.walk(directory)]; the empty path names no directory. *)
Definition os_walk (directory : string) (root : node)
    : list (string * list string * list string) :=
  if String.eqb directory EmptyString then [] else walk directory root.

(** [fnmatch.fnmatchcase(name, pat)] for patterns made of [*] and literal
    characters (no [?], no [[]). *)
Fixpoint fnmatch (pat : string) : string → bool :=
  match pat with
  | EmptyString => λ name, String.eqb name EmptyString
  | String c pat' =>
      if Ascii.eqb c "*" then
        fix star (name : string) : bool :=
          fnmatch pat' name ||
          match name with
          | EmptyString => false
          | String _ name' => star name'
          end
      else
        λ name, match name with
                | String a name' => Ascii.eqb a c && fnmatch pat' name'
                | EmptyString => false
                end
  end.

(** [glob.has_magic]: the path holds one of the characters [*], [?]
    and the opening square bracket. *)
Fixpoint has_magic (s : string) : bool :=
  match s with
  | EmptyString => false
  | String c s' =>
      Ascii.eqb c "*" || Ascii.eqb c "?" || Ascii.eqb c "[" || has_magic s'
  end.

(** What [glob.glob] depends on besides the contents of the directory it
    is asked to search. *)
Class GlobEnv := {
  (** whether [os.path.normcase] folds case, as it does on Windows, where
      [fnmatch.filter] therefore compares names without regard to case *)
  fnmatch_folds_case : bool;
  (** for a directory part that holds a glob metacharacter: the existing
      directories whose path matches it, each with its contents, in the
      order [glob] comes across them *)
  glob_dirs : string → list (string * node);
}.

Definition backslash : ascii := ascii_of_nat 92.

(** [ntpath.normcase] on one character *)
Definition nt_fold (c : ascii) : ascii :=
  if Ascii.eqb c "/" then backslash else ascii_lower c.

(** [os.path.normcase] *)
Definition normcase {env : GlobEnv} (s : string) : string :=
  if fnmatch_folds_case then str_map nt_fold s else s.

(** [fnmatch.filter(names, pat)] *)
Definition fnmatch_filter {env : GlobEnv} (names : list string) (pat : string)
    : list string :=
  filter (λ name, fnmatch (normcase pat) (normcase name) = true) names.

(** [glob._glob1(dirname, pattern)], with [n] what is found at [dirname]:
    the names listed there that match, hidden names left out unless the
    pattern itself starts with a dot. *)
Definition glob1 {env : GlobEnv} (n : node) (pattern : string) : list string :=
  let names := listdir n in
  fnmatch_filter
    (if startswith pattern "." then names
     else filter (λ x, startswith x "." = false) names)
    pattern.

(** [glob.glob(pathname)] for [pathname = os.path.join(directory, pat)],
    where [root] is the contents of [directory] and [pat] is a pattern with
    a star and no slash.  The directory part of [pathname] is searched as
    it stands when it holds no metacharacter; when it holds one it is a
    pattern itself, and every directory it matches is searched instead.
    (For an empty directory part [join] adds nothing to the names.) *)
Definition glob {env : GlobEnv} (root : node) (pathname : string) : list string :=
  let (dirname, pattern) := split pathname in
  let dirs :=
    if negb (String.eqb dirname pathname) && has_magic dirname
    then glob_dirs dirname
    else [(dirname, root)] in
  flat_map (λ d, map (join d.1) (glob1 d.2 pattern)) dirs.

(** [get_image_files(directory, recursive)], with [root] the contents of
    [directory] at the time of the call. *)
Definition get_image_files {env : GlobEnv} (root : node) (directory : string)
    (recursive : bool) : list string :=
  let image_files :=
    if recursive then
      flat_map (λ '(r, _, files),
          map (join r)
              (filter (λ file,
                   existsb (λ ext, endswith (lower file) ext)
                           SUPPORTED_IMAGE_FORMATS = true) files))
        (os_walk directory root)
    else
      flat_map (λ ext,
          glob root (join directory ("*" +:+ ext))
          ++ glob root (join directory ("*" +:+ upper ext)))
        SUPPORTED_IMAGE_FORMATS
  in sorted image_files.

(** ** identify_bracketed_sets *)

(** Body of [for i, file_path in enumerate(image_files)].  [items] is what
    is left of the enumeration, [i] the index of its head, [current_set]
    the object the local variable of that name is bound to. *)
Fixpoint bracket_loop (image_files bracketed_sets : loc) (bracket_count : Z)
    (i : nat) (items : list string) (current_set : loc) : M unit :=
  match items with
  | [] => ret tt
  | file_path :: rest =>
      (let filename := basename file_path in
       list_append current_set file_path ;;
       k <- list_len current_set ;;
       n <- list_len image_files ;;
       if bool_decide (Z.of_nat k = bracket_count)
          || bool_decide (Z.of_nat i = Z.of_nat n - 1)
       then
         (if bool_decide (2 ≤ Z.of_nat k)
          then refs_append bracketed_sets current_set
          else ret tt) ;;
         fresh_set <- new_strs ;;
         bracket_loop image_files bracketed_sets bracket_count (S i) rest fresh_set
       else
         bracket_loop image_files bracketed_sets bracket_count (S i) rest current_set)%py
  end.

(** [identify_bracketed_sets(image_files, bracket_count)]: [image_files] is
    the address of the caller's list; the result is the address of the new
    list of sets.  The loop body writes to fresh objects only, so the
    enumeration runs over the contents read after the sort. *)
Definition identify_bracketed_sets (image_files : loc) (bracket_count : Z) : M loc :=
  (bracketed_sets <- new_refs ;;
   current_set <- new_strs ;;
   list_sort image_files ;;
   items <- get_strs image_files ;;
   bracket_loop image_files bracketed_sets bracket_count 0 items current_set ;;
   ret bracketed_sets)%py.

(** What a caller holding its list at address [l] gets back, as a value. *)
Definition bracketed_sets_of (h : heap) (l : loc) (bracket_count : Z)
    : option (list (list string)) :=
  match identify_bracketed_sets l bracket_count h with
  | Some (r, h') => read_sets h' r
  | None => None
  end.

(** ** The external side: operating system and Photoshop *)

(** Values stored in the parameter dictionaries. *)
Inductive pyval :=
| VStr (s : string)
| VStrs (xs : list string)
| VBool (b : bool)
| VInt (n : Z).

(** What the program asks of its environment.  [W] is the state of the
    outside world (file system, running applications). *)
Class OS (W : Type) := {
  (** [sys.platform] *)
  sys_platform : string;
  (** [os.path.dirname(os.path.abspath(__file__))] *)
  script_dir : string;
  (** [os.path.exists], [os.path.isfile] *)
  os_path_exists : string → W → bool;
  os_path_isfile : string → W → bool;
  (** [os.makedirs]; [None] when it raises (the path cannot be created) *)
  os_makedirs : string → W → option W;
  (** creating the two temporary files, writing the JSON parameters,
      reading the script and writing its modified copy; gives the path of
      that copy, or [None] when one of these steps raises *)
  write_temp_script : gmap string pyval → string → W → option (string * W);
  (** [subprocess.Popen(cmd, ...).communicate()]: the return code, or
      [None] when starting the process raised *)
  popen_communicate : list string → W → option Z * W;
  (** the [finally] block: unlinking the temporary files *)
  unlink_temp_files : W → W;
  (** [time.sleep]: what happens outside meanwhile *)
  time_sleep : Z → W → W;
  (** the empty path names nothing, and cannot be created *)
  os_path_exists_empty : ∀ w, os_path_exists EmptyString w = false;
  os_makedirs_empty : ∀ w, os_makedirs EmptyString w = None;
}.

(** One call of [run_photoshop_script], as observed when it returns. *)
Record invocation (W : Type) := Invocation {
  inv_script : string;
  inv_params : option (gmap string pyval);
  inv_ok : bool;
  inv_after : W;
}.
Arguments Invocation {W}.
Arguments inv_script {W}.
Arguments inv_params {W}.
Arguments inv_ok {W}.
Arguments inv_after {W}.

(** The world, and the history of invocations kept for specification
    purposes only (the program never reads it). *)
Record io (W : Type) := Io {
  world : W;
  history : list (invocation W);
}.
Arguments Io {W}.
Arguments world {W}.
Arguments history {W}.

Section External.
Context {W : Type} `{!OS W}.

Definition IO (A : Type) : Type := St (io W) A.

(** Running a world transition / observation inside [IO]. *)
Definition act {A} (f : W → A * W) : IO A :=
  λ s, let (a, w) := f (world s) in Some (a, Io w (history s)).
Definition observe {A} (f : W → A) : IO A := act (λ w, (f w, w)).
Definition effect (f : W → W) : IO unit := act (λ w, (tt, f w)).

(** Running a call that may raise: the exception is not caught here. *)
Definition attempt {A} (f : W → option (A * W)) : IO A :=
  λ s, match f (world s) with
       | Some (a, w) => Some (a, Io w (history s))
       | None => None
       end.

Definition record_invocation (script : string)
    (params : option (gmap string pyval)) (ok : bool) : IO unit :=
  λ s, Some (tt, Io (world s)
                    (history s ++ [Invocation script params ok (world s)])).

(** [is_valid_file] *)
Definition is_valid_file (path : string) : IO bool :=
  observe (os_path_isfile path).

(** Truth value of [params] in [if params:] *)
Definition params_truthy (params : option (gmap string pyval)) : bool :=
  match params with
  | Some d => negb (bool_decide (d = ∅))
  | None => false
  end.

(** [run_photoshop_script(photoshop_path, jsx_script_path, params)].
    The temporary files are written before the [try] block is entered, so
    an exception raised there leaves the function; one raised by starting
    the process is caught and gives [False]. *)
Definition run_photoshop_script (photoshop_path jsx_script_path : string)
    (params : option (gmap string pyval)) : IO bool :=
  (valid <- is_valid_file jsx_script_path ;;
   if negb valid then
     record_invocation jsx_script_path params false ;;
     ret false
   else
     script <- (match params with
                | Some d =>
                    if params_truthy params
                    then attempt (write_temp_script d jsx_script_path)
                    else ret jsx_script_path
                | None => ret jsx_script_path
                end) ;;
     let cmd :=
       if String.eqb sys_platform "darwin" then
         ["osascript"; "-e";
          "tell application " +:+ dquote +:+ "Adobe Photoshop" +:+ dquote
            +:+ " to open file " +:+ dquote +:+ script +:+ dquote
            +:+ " as JavaScript"]
       else
         [photoshop_path; "--javascript"; script] in
     rc <- act (popen_communicate cmd) ;;
     let ok := match rc with
               | Some code => bool_decide (code = 0)
               | None => false
               end in
     effect unlink_temp_files ;;
     record_invocation jsx_script_path params ok ;;
     ret ok)%py.

(** [if not os.path.exists(output_dir): os.makedirs(output_dir)] *)
Definition ensure_dir (output_dir : string) : IO unit :=
  (there <- observe (os_path_exists output_dir) ;;
   if negb there
   then attempt (λ w, match os_makedirs output_dir w with
                      | Some w' => Some (tt, w')
                      | None => None
                      end)
   else ret tt)%py.

(** [for file in batch_files: ... success_count += 1] *)
Fixpoint count_outputs (output_dir : string) (batch_files : list string)
    (success_count : Z) : IO Z :=
  match batch_files with
  | [] => ret success_count
  | file :: rest =>
      (let output_file := join output_dir (basename file) in
       there <- observe (os_path_exists output_file) ;;
       count_outputs output_dir rest
         (if there then success_count + 1 else success_count))%py
  end.

(** Body of [for i in range(0, total_count, batch_size)] *)
Fixpoint batch_loop (photoshop_path jsx_script_path output_dir : string)
    (params : gmap string pyval) (input_files : list string)
    (batch_size : Z) (starts : list Z) (success_count : Z) : IO Z :=
  match starts with
  | [] => ret success_count
  | i :: rest =>
      (let batch_files := py_slice input_files i (i + batch_size) in
       let batch_params := <["inputFiles" := VStrs batch_files]> params in
       ok <- run_photoshop_script photoshop_path jsx_script_path
               (Some batch_params) ;;
       counted <- (if ok
                   then count_outputs output_dir batch_files success_count
                   else ret success_count) ;;
       effect (time_sleep 2) ;;
       batch_loop photoshop_path jsx_script_path output_dir params
         input_files batch_size rest counted)%py
  end.

(** [batch_edit_photos] *)
Definition batch_edit_photos (photoshop_path : string)
    (input_files : list string) (output_dir : string)
    (apply_exposure apply_lens apply_color : bool) : IO (Z * Z) :=
  (ensure_dir output_dir ;;
   let params : gmap string pyval :=
     <["jpegQuality" := VInt 80]> (
     <["saveFormat" := VStr "jpg"]> (
     <["applyColor" := VBool apply_color]> (
     <["applyLens" := VBool apply_lens]> (
     <["applyExposure" := VBool apply_exposure]> (
     <["outputDir" := VStr output_dir]> (
     <["inputFiles" := VStrs input_files]> ∅)))))) in
   let jsx_script_path :=
     join (join script_dir "photoshop_scripts") "batch_edit.jsx" in
   let total_count := Z.of_nat (length input_files) in
   let batch_size := 10 in
   success_count <-
     batch_loop photoshop_path jsx_script_path output_dir params
       input_files batch_size (py_range 0 total_count batch_size) 0 ;;
   ret (success_count, total_count))%py.

(** [bracketed_set[0]] *)
Definition first_of (bracketed_set : list string) : IO string :=
  match bracketed_set with
  | x :: _ => ret x
  | [] => raise
  end.

(** Body of [for i, bracketed_set in enumerate(bracketed_sets)] *)
Fixpoint hdr_loop (photoshop_path jsx_script_path output_dir : string)
    (remove_ghosts : bool) (sets : list (list string))
    (success_count : Z) : IO Z :=
  match sets with
  | [] => ret success_count
  | bracketed_set :: rest =>
      (first <- first_of bracketed_set ;;
       let first_file := basename first in
       let base_name := (splitext first_file).1 in
       let output_file := join output_dir (base_name +:+ "_HDR.tif") in
       let params : gmap string pyval :=
         <["bit32" := VBool true]> (
         <["removeGhosts" := VBool remove_ghosts]> (
         <["outputFile" := VStr output_file]> (
         <["inputFiles" := VStrs bracketed_set]> ∅))) in
       ok <- run_photoshop_script photoshop_path jsx_script_path
               (Some params) ;;
       counted <- (if ok then
                     there <- observe (os_path_exists output_file) ;;
                     ret (if there then success_count + 1 else success_count)
                   else ret success_count) ;;
       effect (time_sleep 3) ;;
       hdr_loop photoshop_path jsx_script_path output_dir remove_ghosts
         rest counted)%py
  end.

(** [merge_hdr_photos] *)
Definition merge_hdr_photos (photoshop_path : string)
    (bracketed_sets : list (list string)) (output_dir : string)
    (remove_ghosts : bool) : IO (Z * Z) :=
  (ensure_dir output_dir ;;
   let jsx_script_path :=
     join (join script_dir "photoshop_scripts") "hdr_merge.jsx" in
   let total_count := Z.of_nat (length bracketed_sets) in
   success_count <-
     hdr_loop photoshop_path jsx_script_path output_dir remove_ghosts
       bracketed_sets 0 ;;
   ret (success_count, total_count))%py.

(** *** Reading the history *)

(** The file list an invocation was handed. *)
Definition input_files_of (c : invocation W) : list string :=
  match inv_params c with
  | Some d => match d !! "inputFiles" with
              | Some (VStrs xs) => xs
              | _ => []
              end
  | None => []
  end.

(** The output file an HDR invocation was asked to write. *)
Definition output_file_of (c : invocation W) : string :=
  match inv_params c with
  | Some d => match d !! "outputFile" with
              | Some (VStr p) => p
              | _ => EmptyString
              end
  | None => EmptyString
  end.

(** An HDR unit counts when the invocation returned success and its
    output file exists once the invocation has returned. *)
Definition hdr_unit_ok (c : invocation W) : bool :=
  inv_ok c && os_path_exists (output_file_of c) (inv_after c).

(** The files of a batch that count: all those whose output exists once
    the invocation has returned, provided it returned success. *)
Definition batch_unit_ok_files (output_dir : string) (c : invocation W)
    : list string :=
  if inv_ok c then
    filter (λ file,
        os_path_exists (join output_dir (basename file)) (inv_after c) = true)
      (input_files_of c)
  else [].



(** *** When the operating system does not raise *)

(** Writing the temporary files succeeds, whatever the world. *)
Definition temp_files_writable : Prop :=
  ∀ d jsx w, is_Some (write_temp_script d jsx w).

(** The output directory is there or can be made. *)
Definition can_ensure_dir (output_dir : string) (w : W) : Prop :=
  os_path_exists output_dir w = true ∨ is_Some (os_makedirs output_dir w).
End External.

(** The output file [merge_hdr_photos] expects for a bracketed set. *)
Definition expected_hdr_output (output_dir : string) (bracketed_set : list string)
    : string :=
  match bracketed_set with
  | first :: _ =>
      join output_dir ((splitext (basename first)).1 +:+ "_HDR.tif")
  | [] => EmptyString
  end.

(** ** Specification-side definitions *)

(** The loop of [identify_bracketed_sets] on values: [cur] is the contents
    of [current_set], [acc] those of [bracketed_sets], [n] the length of
    the sorted input. *)
Fixpoint grouping (bracket_count : Z) (n i : nat) (items cur : list string)
    (acc : list (list string)) : list (list string) :=
  match items with
  | [] => acc
  | file_path :: rest =>
      let cur' := cur ++ [file_path] in
      if bool_decide (Z.of_nat (length cur') = bracket_count)
         || bool_decide (Z.of_nat i = Z.of_nat n - 1)
      then grouping bracket_count n (S i) rest []
             (if bool_decide (2 ≤ Z.of_nat (length cur'))
              then acc ++ [cur'] else acc)
      else grouping bracket_count n (S i) rest cur' acc
  end.

(** Number of chunks of size [b] needed to cover [n] items: ceil(n/b). *)
Definition chunk_count (b n : nat) : nat := ((n + b - 1) / b)%nat.

(** Consecutive slices of [xs] of size [b]: chunk [i] covers the indices
    from [i*b] up to [min ((i+1)*b) (length xs)]. *)
Definition chunks {A} (b : nat) (xs : list A) : list (list A) :=
  map (λ i, take b (drop (i * b) xs)) (seq 0 (chunk_count b (length xs))).

(** Groups with at least two members. *)
Definition retained (gs : list (list string)) : list (list string) :=
  filter (λ g, (2 ≤ length g)%nat) gs.

(** Patterns without a star. *)
Fixpoint no_star (pat : string) : bool :=
  match pat with
  | EmptyString => true
  | String c pat' => negb (Ascii.eqb c "*") && no_star pat'
  end.

(** What [os.path.join(directory, t)] puts in front of a relative [t]. *)
Definition join_prefix (directory : string) : string :=
  if String.eqb directory EmptyString || endswith directory "/" then directory
  else directory +:+ "/".

(** The patterns [get_image_files] hands to [glob.glob], without the
    directory. *)
Definition glob_patterns : list string :=
  flat_map (λ ext, ["*" +:+ ext; "*" +:+ upper ext]) SUPPORTED_IMAGE_FORMATS.

(** The extension names of the supported formats. *)
Definition extension_names : list string :=
  ["jpg"; "jpeg"; "tif"; "tiff"; "raw"; "cr2"; "nef"; "arw"].

(** The directory part [glob.glob] puts in front of the names it finds
    for patterns built by [os.path.join(directory, ...)]. *)
Definition glob_dirname (directory : string) : string :=
  (split (join directory "*")).1.

(** Two observations of one directory tree: the same entries with the same
    contents, enumerated in possibly different orders at every level. *)
#[warnings="-register-all"]
Inductive same_contents : node → node → Prop :=
| same_file : same_contents File File
| same_dir es mid es' :
    Forall2 (λ e e', e.1 = e'.1 ∧ same_contents e.2 e'.2) es mid →
    mid ≡ₚ es' →
    same_contents (Dir es) (Dir es').

(** The paths collected by the recursive branch of [get_image_files],
    before sorting. *)
Definition walk_matches (top : string) (n : node) : list string :=
  flat_map (λ '(r, _, files),
      map (join r)
          (filter (λ file,
               existsb (λ ext, endswith (lower file) ext)
                       SUPPORTED_IMAGE_FORMATS = true) files))
    (walk top n).

(** A small outside world for examples: the set of existing paths and the
    exit code every Photoshop run ends with. *)
Record demo_world := DemoWorld {
  demo_paths : list string;
  demo_exit : Z;
}.

Global Instance demo_os : OS demo_world := {|
  sys_platform := "linux";
  script_dir := "/opt/photo";
  os_path_exists p w :=
    negb (String.eqb p EmptyString) && bool_decide (p ∈ demo_paths w);
  os_path_isfile p w :=
    negb (String.eqb p EmptyString) && bool_decide (p ∈ demo_paths w);
  os_makedirs p w :=
    if String.eqb p EmptyString then None
    else Some (DemoWorld (p :: demo_paths w) (demo_exit w));
  write_temp_script _ _ w := Some ("/tmp/params.jsx", w);
  popen_communicate _ w := (Some (demo_exit w), w);
  unlink_temp_files w := w;
  time_sleep _ w := w;
  os_path_exists_empty _ := eq_refl;
  os_makedirs_empty _ := eq_refl;
|}.

(** The objects at addresses [rs] hold the groups [gs]. *)
Definition sets_at (h : heap) (rs : list loc) (gs : list (list string)) : Prop :=
  Forall2 (λ r g, h !! r = Some (PyStrs g)) rs gs.


(** A world in which Photoshop exits with code 0 and writes nothing. *)
Definition idle_world : demo_world :=
  DemoWorld ["/opt/photo/photoshop_scripts/hdr_merge.jsx";
             "/opt/photo/photoshop_scripts/batch_edit.jsx"; "out"] 0.

(** Sample listings: seven and eight exposures, not in order. *)
Definition seven_files : list string :=
  ["IMG_004.jpg"; "IMG_002.jpg"; "IMG_007.jpg"; "IMG_001.jpg";
   "IMG_006.jpg"; "IMG_003.jpg"; "IMG_005.jpg"].

Definition eight_files : list string := "IMG_008.jpg" :: seven_files.

(** A directory as two runs may see it: the same entries, enumerated in
    different orders. *)
Definition shoot_dir : node :=
  Dir [("IMG_002.JPG", File); ("notes.txt", File);
       ("raw", Dir [("IMG_002.cr2", File); ("IMG_001.CR2", File)]);
       ("IMG_001.jpg", File); (".hidden.jpg", File); ("IMG_003.Jpg", File)].

Definition shoot_dir_again : node :=
  Dir [("notes.txt", File); ("IMG_002.JPG", File);
       ("raw", Dir [("IMG_001.CR2", File); ("IMG_002.cr2", File)]);
       ("IMG_001.jpg", File); (".hidden.jpg", File); ("IMG_003.Jpg", File)].

(** A POSIX host on which no directory has a metacharacter in its
    path. *)
Definition posix_env : GlobEnv := {|
  fnmatch_folds_case := false;
  glob_dirs _ := [];
|}.

(** A Windows host: names are compared without regard to case. *)
Definition windows_env : GlobEnv := {|
  fnmatch_folds_case := true;
  glob_dirs _ := [];
|}.

(** A directory whose name is a[b], holding two images, next to a
    directory ab holding a third; the pattern a[b] matches the path ab
    and not the path a[b]. *)
Definition bracket_dir : node := Dir [("x.jpg", File); ("y.JPG", File)].

Definition bracket_env : GlobEnv := {|
  fnmatch_folds_case := false;
  glob_dirs d :=
    if String.eqb d "a[b]" then [("ab", Dir [("other.jpg", File)])] else [];
|}.

(** ** Locating Photoshop and the entry point *)

Definition PHOTOSHOP_PATHS : gmap string (list string) :=
  <["linux" :=
      ["/usr/bin/photoshop";
       "/opt/photoshop/photoshop"]]> (
  <["win32" :=
      ["C:\Program Files\Adobe\Adobe Photoshop 2023\Photoshop.exe";
       "C:\Program Files\Adobe\Adobe Photoshop 2022\Photoshop.exe";
       "C:\Program Files\Adobe\Adobe Photoshop 2021\Photoshop.exe";
       "C:\Program Files\Adobe\Adobe Photoshop CC 2020\Photoshop.exe"]]> (
  <["darwin" :=
      ["/Applications/Adobe Photoshop 2023/Adobe Photoshop 2023.app/Contents/MacOS/Adobe Photoshop 2023";
       "/Applications/Adobe Photoshop 2022/Adobe Photoshop 2022.app/Contents/MacOS/Adobe Photoshop 2022";
       "/Applications/Adobe Photoshop 2021/Adobe Photoshop 2021.app/Contents/MacOS/Adobe Photoshop 2021";
       "/Applications/Adobe Photoshop CC 2020/Adobe Photoshop CC 2020.app/Contents/MacOS/Adobe Photoshop CC 2020"]]>
  ∅)).

(** What the entry point asks of the file system besides [OS]:
    [os.path.isdir], and the contents of a directory as [get_image_files]
    finds them. *)
Class FS (W : Type) := {
  os_path_isdir : string → W → bool;
  scan_dir : string → W → node;
}.

(** The subcommands of the command line. *)
Inductive command := Batch | Hdr.

(** The namespace [parser.parse_args()] returns.  [args_command] is [None]
    when no subcommand was given, [args_photoshop] when [--photoshop] was
    not. *)
Record cli_args := CliArgs {
  args_command : option command;
  args_input : string;
  args_output : string;
  args_recursive : bool;
  args_no_exposure : bool;
  args_no_lens : bool;
  args_no_color : bool;
  args_bracket_count : Z;
  args_no_ghost : bool;
  args_photoshop : option string;
}.

(** How a run of [main] ends: the last thing it reports.  [main] itself
    returns nothing. *)
Inductive outcome :=
| PrintedHelp
| PhotoshopNotFound
| InputDirNotFound
| NoImageFiles
| NoBracketedSets
| BatchComplete (success_count total_count : Z)
| HdrComplete (success_count total_count : Z).

(** The outcomes reached before any work is handed to Photoshop. *)
Definition early_exit (o : outcome) : bool :=
  match o with
  | BatchComplete _ _ | HdrComplete _ _ => false
  | _ => true
  end.

(** Truth value of a string. *)
Definition str_truthy (s : string) : bool := negb (String.eqb s EmptyString).

Section EntryPoint.
Context {W : Type} `{!OS W} `{!FS W} {env : GlobEnv}.

(** [for path in PHOTOSHOP_PATHS[platform]: if os.path.exists(path): return path] *)
Fixpoint first_existing (paths : list string) : IO (option string) :=
  match paths with
  | [] => ret None
  | path :: rest =>
      (there <- observe (os_path_exists path) ;;
       if there then ret (Some path) else first_existing rest)%py
  end.

(** [find_photoshop_path()] *)
Definition find_photoshop_path : IO (option string) :=
  match PHOTOSHOP_PATHS !! sys_platform with
  | None => ret None
  | Some paths => first_existing paths
  end.

(** [is_valid_dir] *)
Definition is_valid_dir (path : string) : IO bool :=
  observe (os_path_isdir path).

(** [get_image_files] run against the world as it is. *)
Definition discover (directory : string) (recursive : bool) : IO (list string) :=
  observe (λ w, get_image_files (scan_dir directory w) directory recursive).

(** [main()], after [parser.parse_args()] has produced [args]. *)
Definition main (args : cli_args) : IO outcome :=
  match args_command args with
  | None => ret PrintedHelp
  | Some cmd =>
      (found <- (match args_photoshop args with
                 | Some p => if str_truthy p then ret (Some p)
                             else find_photoshop_path
                 | None => find_photoshop_path
                 end) ;;
       match found with
       | None => ret PhotoshopNotFound
       | Some photoshop_path =>
           if negb (str_truthy photoshop_path) then ret PhotoshopNotFound
           else
             valid <- is_valid_dir (args_input args) ;;
             if negb valid then ret InputDirNotFound
             else
               ensure_dir (args_output args) ;;
               match cmd with
               | Batch =>
                   image_files <- discover (args_input args)
                                    (args_recursive args) ;;
                   match image_files with
                   | [] => ret NoImageFiles
                   | _ =>
                       counts <- batch_edit_photos photoshop_path image_files
                                   (args_output args)
                                   (negb (args_no_exposure args))
                                   (negb (args_no_lens args))
                                   (negb (args_no_color args)) ;;
                       ret (BatchComplete counts.1 counts.2)
                   end
               | Hdr =>
                   image_files <- discover (args_input args) false ;;
                   match image_files with
                   | [] => ret NoImageFiles
                   | _ =>
                       match bracketed_sets_of [PyStrs image_files] 0%nat
                               (args_bracket_count args) with
                       | None => raise
                       | Some [] => ret NoBracketedSets
                       | Some bracketed_sets =>
                           counts <- merge_hdr_photos photoshop_path
                                       bracketed_sets (args_output args)
                                       (negb (args_no_ghost args)) ;;
                           ret (HdrComplete counts.1 counts.2)
                       end
                   end
               end
       end)%py
  end.
End EntryPoint.

(** The sample world seen through [FS]: every existing path is a
    directory and holds the sample shoot. *)
Global Instance demo_fs : FS demo_world := {|
  os_path_isdir p w := bool_decide (p ∈ demo_paths w);
  scan_dir _ _ := shoot_dir;
|}.

(** A macOS world with no state of its own: scripts exist, Photoshop
    always exits with code 0, nothing else is there. *)
Inductive mac_world := MacWorld.

Global Instance mac_os : OS mac_world := {|
  sys_platform := "darwin";
  script_dir := "/Users/me/photo";
  os_path_exists _ _ := false;
  os_path_isfile _ _ := true;
  os_makedirs p w := if String.eqb p EmptyString then None else Some w;
  write_temp_script _ _ w := Some ("/tmp/params.jsx", w);
  popen_communicate _ w := (Some 0, w);
  unlink_temp_files w := w;
  time_sleep _ w := w;
  os_path_exists_empty _ := eq_refl;
  os_makedirs_empty _ := eq_refl;
|}.

(** A world whose disk is full: every named path exists, but no temporary
    file can be written. *)
Inductive full_disk_world := FullDisk.

Global Instance full_disk_os : OS full_disk_world := {|
  sys_platform := "linux";
  script_dir := "/opt/photo";
  os_path_exists p _ := negb (String.eqb p EmptyString);
  os_path_isfile p _ := negb (String.eqb p EmptyString);
  os_makedirs p w := if String.eqb p EmptyString then None else Some w;
  write_temp_script _ _ _ := None;
  popen_communicate _ w := (Some 0, w);
  unlink_temp_files w := w;
  time_sleep _ w := w;
  os_path_exists_empty _ := eq_refl;
  os_makedirs_empty _ := eq_refl;
|}.

(** Files found at any depth: [file_at top t r name] says that the tree
    [t] rooted at path [top] has the regular file [name] in its directory
    of path [r]. *)
Inductive file_at : string → node → string → string → Prop :=
| file_here top es name :
    (name, File) ∈ es → file_at top (Dir es) top name
| file_below top es dname sub r name :
    (dname, sub) ∈ es → file_at (join top dname) sub r name →
    file_at top (Dir es) r name.

(** The test of the recursive branch on a file name. *)
Definition supported_name (file : string) : bool :=
  existsb (λ ext, endswith (lower file) ext) SUPPORTED_IMAGE_FORMATS.

(** The names the non-recursive branch picks from a listing: not hidden,
    and ending with a supported extension written all in lower case or all
    in upper case. *)
Definition globbed_name (name : string) : bool :=
  negb (startswith name ".")
  && existsb (λ ext, endswith name ext || endswith name (upper ext))
       SUPPORTED_IMAGE_FORMATS.

(** The endings the non-recursive branch looks for: each supported
    extension in lower case and in upper case. *)
Definition glob_suffixes : list string :=
  flat_map (λ ext, [ext; upper ext]) SUPPORTED_IMAGE_FORMATS.

(** * Properties *)

(** ** Strings *)

Lemma eqb_true_eq s t : String.eqb s t = true ↔ s = t.
Proof. apply String.eqb_eq. Qed.

Lemma app_nil_str (s : string) : EmptyString +:+ s = s.
Proof. reflexivity. Qed.

Lemma app_cons_str a (s t : string) : String a s +:+ t = String a (s +:+ t).
Proof. reflexivity. Qed.

Lemma app_empty_r (s : string) : s +:+ EmptyString = s.
Proof. induction s; rewrite ?app_nil_str, ?app_cons_str; congruence. Qed.

Lemma app_assoc_str (a b c : string) : (a +:+ b) +:+ c = a +:+ (b +:+ c).
Proof. induction a; rewrite ?app_nil_str, ?app_cons_str; congruence. Qed.

Lemma endswith_nil t : endswith EmptyString t = String.eqb EmptyString t.
Proof. unfold endswith. apply orb_false_r. Qed.

Lemma endswith_cons a s t :
  endswith (String a s) t = String.eqb (String a s) t || endswith s t.
Proof. reflexivity. Qed.

Lemma endswith_iff s t : endswith s t = true ↔ ∃ u, s = u +:+ t.
Proof.
  split.
  - induction s as [|a s IH].
    + rewrite endswith_nil. intros ->%eqb_true_eq. by exists EmptyString.
    + rewrite endswith_cons.
      intros [->%eqb_true_eq|H]%orb_true_iff; [by exists EmptyString|].
      destruct (IH H) as [u ->]. by exists (String a u).
  - intros [u ->]. induction u as [|a u IH].
    + rewrite app_nil_str. destruct t.
      * by rewrite endswith_nil.
      * by rewrite endswith_cons, String.eqb_refl.
    + rewrite app_cons_str, endswith_cons, IH. apply orb_true_r.
Qed.

Lemma str_map_app f s t : str_map f (s +:+ t) = str_map f s +:+ str_map f t.
Proof.
  induction s; rewrite ?app_nil_str, ?app_cons_str; simpl;
    rewrite ?app_nil_str, ?app_cons_str; congruence.
Qed.

Lemma endswith_app u s t : endswith s t = true → endswith (u +:+ s) t = true.
Proof.
  rewrite !endswith_iff. intros [v ->]. exists (u +:+ v).
  by rewrite app_assoc_str.
Qed.

Lemma endswith_lower s t :
  endswith s t = true → endswith (lower s) (lower t) = true.
Proof.
  rewrite !endswith_iff. intros [u ->]. exists (lower u).
  apply str_map_app.
Qed.

Lemma join_ends a b : ∃ u, join a b = u +:+ b.
Proof.
  unfold join. destruct (startswith b "/"); [by exists EmptyString|].
  destruct (_ || _); [by exists a|].
  exists (a +:+ "/"). by rewrite app_assoc_str.
Qed.

(** ** The object store *)

Lemma bind_run {S A B} (m : St S A) (k : A → St S B) s a s' :
  m s = Some (a, s') → bind m k s = k a s'.
Proof. unfold bind. by intros ->. Qed.

Lemma list_append_run (h : heap) l xs x :
  h !! l = Some (PyStrs xs) →
  list_append l x h = Some (tt, <[l:=PyStrs (xs ++ [x])]> h).
Proof. intros H. unfold list_append, bind, get_strs, put. by rewrite H. Qed.

Lemma list_len_run (h : heap) l xs :
  h !! l = Some (PyStrs xs) → list_len l h = Some (length xs, h).
Proof. intros H. unfold list_len, bind, get_strs, ret. by rewrite H. Qed.

Lemma refs_append_run (h : heap) l rs r :
  h !! l = Some (PyRefs rs) →
  refs_append l r h = Some (tt, <[l:=PyRefs (rs ++ [r])]> h).
Proof. intros H. unfold refs_append, bind, get_refs, put. by rewrite H. Qed.

Lemma list_sort_run (h : heap) l xs :
  h !! l = Some (PyStrs xs) →
  list_sort l h = Some (tt, <[l:=PyStrs (sorted xs)]> h).
Proof. intros H. unfold list_sort, bind, get_strs, put. by rewrite H. Qed.

Lemma get_strs_run (h : heap) l xs :
  h !! l = Some (PyStrs xs) → get_strs l h = Some (xs, h).
Proof. intros H. unfold get_strs. by rewrite H. Qed.

Lemma new_strs_run (h : heap) :
  new_strs h = Some (length h, h ++ [PyStrs []]).
Proof. reflexivity. Qed.

Lemma new_refs_run (h : heap) :
  new_refs h = Some (length h, h ++ [PyRefs []]).
Proof. reflexivity. Qed.

Lemma ret_run {S A} (a : A) (s : S) : ret a s = Some (a, s).
Proof. reflexivity. Qed.

Lemma sets_at_lt (h : heap) rs gs :
  sets_at h rs gs → Forall (λ r, (r < length h)%nat) rs.
Proof.
  induction 1 as [|r g rs gs Hr _ IH]; constructor; [|done].
  by eapply lookup_lt_Some.
Qed.

Lemma sets_at_frame (h h' : heap) rs gs :
  sets_at h rs gs → Forall (λ r, h' !! r = h !! r) rs → sets_at h' rs gs.
Proof.
  induction 1 as [|r g rs gs Hr _ IH]; intros Hf; [constructor|].
  apply Forall_cons in Hf as [Hr' Hf].
  constructor; [congruence|by apply IH].
Qed.

Lemma sets_at_read (h : heap) bs rs gs :
  h !! bs = Some (PyRefs rs) → sets_at h rs gs → read_sets h bs = Some gs.
Proof.
  intros Hbs Hs. unfold read_sets. rewrite Hbs. apply mapM_Some.
  eapply Forall2_impl; [exact Hs|]. intros r g Hr. unfold read_strs.
  by rewrite Hr.
Qed.

Lemma bracket_loop_spec l bs B s k items :
  ∀ i cs (h : heap) rs acc cur,
    (l < k)%nat → (k ≤ bs)%nat → (k ≤ cs)%nat → bs ≠ cs →
    h !! l = Some (PyStrs s) →
    h !! bs = Some (PyRefs rs) →
    h !! cs = Some (PyStrs cur) →
    Forall (λ r, (k ≤ r)%nat ∧ r ≠ bs ∧ r ≠ cs) rs →
    sets_at h rs acc →
    ∃ (h' : heap) rs',
      bracket_loop l bs B i items cs h = Some (tt, h') ∧
      h' !! bs = Some (PyRefs rs') ∧
      Forall (λ r, (k ≤ r)%nat ∧ r ≠ bs) rs' ∧
      sets_at h' rs' (grouping B (length s) i items cur acc) ∧
      (∀ a, (a < k)%nat → h' !! a = h !! a).
Proof.
  induction items as [|f rest IH]; intros i cs h rs acc cur Hl Hbs Hcs Hne Hhl Hhbs Hhcs Hrs Hacc.
  { exists h, rs. simpl. split_and!; try done.
    eapply Forall_impl; [exact Hrs|]. by intros r (? & ? & ?). }
  pose proof (lookup_lt_Some _ _ _ Hhcs) as Hcslt.
  pose proof (lookup_lt_Some _ _ _ Hhbs) as Hbslt.
  pose proof (sets_at_lt _ _ _ Hacc) as Hrslt.
  set (h1 := <[cs:=PyStrs (cur ++ [f])]> h).
  assert (h1 !! cs = Some (PyStrs (cur ++ [f]))) as H1cs
    by (by apply list_lookup_insert_eq).
  assert (h1 !! l = Some (PyStrs s)) as H1l
    by (unfold h1; rewrite list_lookup_insert_ne by lia; done).
  assert (h1 !! bs = Some (PyRefs rs)) as H1bs
    by (unfold h1; rewrite list_lookup_insert_ne by lia; done).
  assert (sets_at h1 rs acc) as H1acc.
  { eapply sets_at_frame; [exact Hacc|]. eapply Forall_impl; [exact Hrs|].
    intros r (_ & _ & Hr). unfold h1. by rewrite list_lookup_insert_ne by lia. }
  assert (length h1 = length h) as Hlen1 by apply length_insert.
  cbn [bracket_loop grouping].
  erewrite bind_run by (by apply list_append_run).
  erewrite bind_run by (by apply list_len_run).
  erewrite bind_run by (by apply list_len_run).
  destruct (bool_decide (Z.of_nat (length (cur ++ [f])) = B)
            || bool_decide (Z.of_nat i = Z.of_nat (length s) - 1)).
  - (* the set is closed *)
    destruct (bool_decide (2 ≤ Z.of_nat (length (cur ++ [f])))).
    + erewrite bind_run by (by apply refs_append_run).
      set (h2 := <[bs:=PyRefs (rs ++ [cs])]> h1).
      assert (length h2 = length h) as Hlen2
        by (unfold h2; by rewrite length_insert).
      erewrite bind_run by apply new_strs_run.
      fold h1. fold h2. rewrite Hlen2.
      destruct (IH (S i) (length h) (h2 ++ [PyStrs []]) (rs ++ [cs])
                  (acc ++ [cur ++ [f]]) []) as (h' & rs' & Hrun & ? & ? & ? & Hfr);
        try done; try lia.
      * rewrite lookup_app_l by lia. unfold h2.
        rewrite list_lookup_insert_ne by lia. done.
      * rewrite lookup_app_l by lia. unfold h2.
        apply list_lookup_insert_eq. lia.
      * rewrite lookup_app_r by lia. by rewrite Hlen2, Nat.sub_diag.
      * apply Forall_app. split.
        -- apply Forall_forall. intros r Hr.
           rewrite Forall_forall in Hrs, Hrslt.
           specialize (Hrs r Hr). specialize (Hrslt r Hr). lia.
        -- apply Forall_singleton. lia.
      * apply Forall2_app.
        -- eapply sets_at_frame; [exact H1acc|].
           apply Forall_forall. intros r Hr.
           rewrite Forall_forall in Hrs, Hrslt.
           specialize (Hrs r Hr). specialize (Hrslt r Hr).
           rewrite lookup_app_l by lia. unfold h2.
           by rewrite list_lookup_insert_ne by lia.
        -- constructor; [|constructor].
           rewrite lookup_app_l by lia. unfold h2.
           by rewrite list_lookup_insert_ne by lia.
      * exists h', rs'. split_and!; try done.
        intros a Ha. rewrite Hfr by done.
        rewrite lookup_app_l by lia. unfold h2, h1.
        by rewrite !list_lookup_insert_ne by lia.
    + erewrite bind_run by apply ret_run.
      erewrite bind_run by apply new_strs_run.
      fold h1. rewrite Hlen1.
      destruct (IH (S i) (length h) (h1 ++ [PyStrs []]) rs acc [])
        as (h' & rs' & Hrun & ? & ? & ? & Hfr); try done; try lia.
      * rewrite lookup_app_l by lia. done.
      * rewrite lookup_app_l by lia. done.
      * rewrite lookup_app_r by lia. by rewrite Hlen1, Nat.sub_diag.
      * apply Forall_forall. intros r Hr.
        rewrite Forall_forall in Hrs, Hrslt.
        specialize (Hrs r Hr). specialize (Hrslt r Hr). lia.
      * eapply sets_at_frame; [exact H1acc|].
        apply Forall_forall. intros r Hr.
        rewrite Forall_forall in Hrslt. specialize (Hrslt r Hr).
        by rewrite lookup_app_l by lia.
      * exists h', rs'. split_and!; try done.
        intros a Ha. rewrite Hfr by done.
        rewrite lookup_app_l by lia. unfold h1.
        by rewrite list_lookup_insert_ne by lia.
  - (* the set stays open *)
    destruct (IH (S i) cs h1 rs acc (cur ++ [f]))
      as (h' & rs' & Hrun & ? & ? & ? & Hfr); try done.
    exists h', rs'. split_and!; try done.
    intros a Ha. rewrite Hfr by done. unfold h1.
    by rewrite list_lookup_insert_ne by lia.
Qed.

Lemma sorted_perm xs : sorted xs ≡ₚ xs.
Proof. apply merge_sort_Permutation. Qed.

Lemma sorted_length xs : length (sorted xs) = length xs.
Proof. by rewrite sorted_perm. Qed.

Lemma sorted_Sorted xs : Sorted String.le (sorted xs).
Proof. apply (Sorted_merge_sort String.le). Qed.

Lemma sorted_StronglySorted xs : StronglySorted String.le (sorted xs).
Proof. apply (StronglySorted_merge_sort String.le). Qed.

(** [sorted xs] is the only sorted arrangement of [xs]: whatever algorithm
    [list.sort] runs, this is what it leaves. *)
Lemma sorted_unique xs ys :
  ys ≡ₚ xs → Sorted String.le ys → ys = sorted xs.
Proof.
  intros Hp Hs. apply (Sorted_unique String.le); [done|apply sorted_Sorted|].
  by rewrite sorted_perm.
Qed.

(** Sorting does not depend on the order the items arrive in. *)
Lemma sorted_perm_eq xs ys : xs ≡ₚ ys → sorted xs = sorted ys.
Proof.
  intros Hp. apply (Sorted_unique String.le); try apply sorted_Sorted.
  by rewrite !sorted_perm.
Qed.

(** A full run of [identify_bracketed_sets] from a store in which the
    caller's list sits at [l]. *)
Lemma identify_bracketed_sets_run (h : heap) l files B :
  h !! l = Some (PyStrs files) →
  ∃ (h' : heap) rs,
    identify_bracketed_sets l B h = Some (length h, h') ∧
    h' !! l = Some (PyStrs (sorted files)) ∧
    h' !! length h = Some (PyRefs rs) ∧
    Forall (λ r, (length h < r)%nat) rs ∧
    sets_at h' rs (grouping B (length files) 0 (sorted files) [] []) ∧
    (∀ a, (a < length h)%nat → a ≠ l → h' !! a = h !! a).
Proof.
  intros Hl. pose proof (lookup_lt_Some _ _ _ Hl) as Hlt.
  unfold identify_bracketed_sets.
  erewrite bind_run by apply new_refs_run.
  erewrite bind_run by apply new_strs_run.
  set (h2 := (h ++ [PyRefs []]) ++ [PyStrs []]).
  assert (h2 !! l = Some (PyStrs files)) as H2l
    by (unfold h2; rewrite !lookup_app_l by (rewrite ?length_app; lia); done).
  erewrite bind_run by (by apply list_sort_run).
  set (h3 := <[l:=PyStrs (sorted files)]> h2).
  assert (length h2 = S (S (length h))) as Hlen2
    by (unfold h2; rewrite !length_app; simpl; lia).
  assert (h3 !! l = Some (PyStrs (sorted files))) as H3l
    by (apply list_lookup_insert_eq; lia).
  erewrite bind_run by (by apply get_strs_run).
  rewrite length_app. simpl length. rewrite Nat.add_1_r.
  destruct (bracket_loop_spec l (length h) B (sorted files) (length h)
              (sorted files) 0%nat (S (length h)) h3 [] [] [])
    as (h' & rs & Hrun & Hbs & Hrs & Hsets & Hfr); try done; try lia.
  { unfold h3. rewrite list_lookup_insert_ne by lia. unfold h2.
    rewrite lookup_app_l by (rewrite length_app; simpl; lia).
    rewrite lookup_app_r by lia. by rewrite Nat.sub_diag. }
  { unfold h3. rewrite list_lookup_insert_ne by lia. unfold h2.
    rewrite lookup_app_r by (rewrite length_app; simpl; lia).
    rewrite length_app. simpl length.
    by replace (S (length h) - (length h + 1))%nat with 0%nat by lia. }
  { constructor. }
  erewrite bind_run by exact Hrun.
  exists h', rs. rewrite sorted_length in Hsets.
  split_and!; try done.
  - by rewrite Hfr.
  - eapply Forall_impl; [exact Hrs|]. intros r [? ?]. lia.
  - intros a Ha Hne. rewrite Hfr by done. unfold h3.
    rewrite list_lookup_insert_ne by done. unfold h2.
    by rewrite !lookup_app_l by (rewrite ?length_app; lia).
Qed.

Lemma bracketed_sets_of_grouping (h : heap) l files B :
  h !! l = Some (PyStrs files) →
  bracketed_sets_of h l B
  = Some (grouping B (length files) 0 (sorted files) [] []).
Proof.
  intros Hl. unfold bracketed_sets_of.
  destruct (identify_bracketed_sets_run h l files B Hl)
    as (h' & rs & -> & _ & Hbs & _ & Hsets & _).
  by eapply sets_at_read.
Qed.

(** ** Chunks *)

Lemma chunk_count_div b n :
  (0 < b)%nat →
  chunk_count b n = (n / b + if decide (n mod b = 0) then 0 else 1)%nat.
Proof.
  intros Hb. unfold chunk_count.
  pose proof (Nat.div_mod_eq n b) as Hn.
  pose proof (Nat.mod_upper_bound n b ltac:(lia)) as Hr.
  set (q := (n / b)%nat) in *. set (r := (n mod b)%nat) in *.
  case_decide as H0.
  - symmetry. apply (Nat.div_unique _ _ _ (b - 1)); lia.
  - symmetry. apply (Nat.div_unique _ _ _ (r - 1)); lia.
Qed.

Lemma chunk_count_S b n :
  (0 < b)%nat → (0 < n)%nat → chunk_count b n = S (chunk_count b (n - b)).
Proof.
  intros Hb Hn. unfold chunk_count.
  destruct (decide (n ≤ b)%nat) as [Hle|Hgt].
  - replace (n - b)%nat with 0%nat by lia.
    rewrite (Nat.div_small (0 + b - 1) b) by lia.
    symmetry. apply (Nat.div_unique _ _ _ (n - 1)); lia.
  - replace (n + b - 1)%nat with ((n - b + b - 1) + 1 * b)%nat by lia.
    rewrite Nat.div_add by lia. lia.
Qed.

Lemma chunks_nil {A} b : chunks b (@nil A) = [].
Proof.
  unfold chunks, chunk_count. simpl length.
  destruct b as [|b]; [done|].
  replace (0 + S b - 1)%nat with b by lia.
  by rewrite Nat.div_small by lia.
Qed.

Lemma chunks_cons {A} b (xs : list A) :
  (0 < b)%nat → xs ≠ [] →
  chunks b xs = take b xs :: chunks b (drop b xs).
Proof.
  intros Hb Hxs. unfold chunks.
  assert (0 < length xs)%nat by (destruct xs; simpl; [done|lia]).
  rewrite chunk_count_S by done. rewrite length_drop.
  cbn [seq map]. f_equal.
  rewrite <- seq_shift, map_map. apply map_ext. intros i.
  rewrite drop_drop. do 2 f_equal; lia.
Qed.

Lemma chunks_concat {A} b (xs : list A) :
  (0 < b)%nat → concat (chunks b xs) = xs.
Proof.
  intros Hb. remember (length xs) as n eqn:Hn.
  revert xs Hn. induction n as [n IH] using lt_wf_ind. intros xs ->.
  destruct xs as [|x xs]; [by rewrite chunks_nil|].
  rewrite chunks_cons by done. cbn [concat].
  rewrite (IH (length (drop b (x :: xs)))); try done.
  - apply take_drop.
  - rewrite length_drop. simpl. lia.
Qed.

(** The groups of a chunking: [q] full ones, then the remainder. *)
Lemma chunks_div_mod {A} b (xs : list A) :
  (0 < b)%nat →
  chunks b xs
  = map (λ i, take b (drop (i * b) xs)) (seq 0 (length xs / b))
    ++ (if decide (length xs mod b = 0)%nat then []
        else [drop (length xs / b * b) xs]).
Proof.
  intros Hb. unfold chunks. rewrite chunk_count_div by done.
  case_decide as H0.
  - by rewrite Nat.add_0_r, app_nil_r.
  - rewrite seq_app, map_app. cbn [seq map]. do 2 f_equal.
    apply take_ge. rewrite length_drop.
    pose proof (Nat.div_mod_eq (length xs) b).
    pose proof (Nat.mod_upper_bound (length xs) b ltac:(lia)). lia.
Qed.

Lemma chunks_sizes {A} b (xs : list A) :
  (0 < b)%nat → Forall (λ g, (1 ≤ length g ≤ b)%nat) (chunks b xs).
Proof.
  intros Hb. unfold chunks. apply Forall_forall. intros g Hg.
  apply list_elem_of_fmap in Hg as (i & -> & Hi).
  apply elem_of_seq in Hi. rewrite length_take, length_drop.
  rewrite chunk_count_div in Hi by done.
  pose proof (Nat.div_mod_eq (length xs) b).
  pose proof (Nat.mod_upper_bound (length xs) b ltac:(lia)).
  case_decide; nia.
Qed.

(** ** The grouping loop on values *)

Lemma retained_cons g gs :
  retained (g :: gs)
  = if decide (2 ≤ length g)%nat then g :: retained gs else retained gs.
Proof. unfold retained. rewrite filter_cons. by case_decide. Qed.

Lemma retained_app gs gs' : retained (gs ++ gs') = retained gs ++ retained gs'.
Proof. apply filter_app. Qed.

Lemma retained_sizes gs : Forall (λ g, (2 ≤ length g)%nat) (retained gs).
Proof. apply Forall_forall. intros g Hg. by apply list_elem_of_filter in Hg as [? _]. Qed.

Lemma retained_sub g gs : g ∈ retained gs → g ∈ gs.
Proof. intros Hg. by apply list_elem_of_filter in Hg as [_ ?]. Qed.

(** With a positive [bracket_count] the loop cuts what is left into chunks
    and keeps those with two members or more. *)
Lemma grouping_chunks B n items :
  ∀ i cur acc,
    1 ≤ B →
    (i + length items = n)%nat →
    (length cur < Z.to_nat B)%nat →
    (items = [] → cur = []) →
    grouping B n i items cur acc
    = acc ++ retained (chunks (Z.to_nat B) (cur ++ items)).
Proof.
  induction items as [|f rest IH]; intros i cur acc HB Hn Hcur Hnil.
  { rewrite (Hnil eq_refl). simpl. by rewrite chunks_nil, app_nil_r. }
  cbn [grouping]. simpl in Hn.
  assert (length (cur ++ [f]) = S (length cur)) as Hlen
    by (rewrite length_app; simpl; lia).
  rewrite Hlen.
  destruct (decide (S (length cur) = Z.to_nat B)) as [Hfull|Hpart].
  - (* the set reaches [bracket_count] *)
    rewrite (bool_decide_eq_true_2 (Z.of_nat (S (length cur)) = B)) by lia.
    rewrite orb_true_l.
    rewrite IH; try done; try (simpl; lia).
    rewrite app_nil_l.
    rewrite (chunks_cons _ (cur ++ f :: rest)) by (try lia; by destruct cur).
    rewrite (cons_middle f cur rest), app_assoc.
    rewrite take_app_length' by lia. rewrite drop_app_length' by lia.
    rewrite retained_cons, Hlen.
    case_bool_decide; case_decide; try lia.
    + by rewrite <- app_assoc.
    + done.
  - rewrite (bool_decide_eq_false_2 (Z.of_nat (S (length cur)) = B)) by lia.
    rewrite orb_false_l.
    destruct rest as [|f' rest].
    + (* the last file closes a short set *)
      rewrite (bool_decide_eq_true_2 (Z.of_nat i = Z.of_nat n - 1))
        by (simpl in Hn; lia).
      cbn [grouping].
      rewrite (chunks_cons _ (cur ++ [f])) by (try lia; by destruct cur).
      rewrite take_ge by lia. rewrite drop_ge by lia.
      rewrite chunks_nil, retained_cons, Hlen. cbn [retained filter].
      case_bool_decide; case_decide; try lia; try done.
      by rewrite app_nil_r.
    + rewrite (bool_decide_eq_false_2 (Z.of_nat i = Z.of_nat n - 1))
        by (simpl in Hn; lia).
      rewrite IH; try done; try (simpl in *; lia).
      by rewrite <- app_assoc.
Qed.

(** With [bracket_count <= 0] no set ever reaches the count: everything
    goes into one set, closed by the last file. *)
Lemma grouping_nonpos B n items :
  ∀ i cur acc,
    B ≤ 0 →
    (i + length items = n)%nat →
    items ≠ [] →
    grouping B n i items cur acc = acc ++ retained [cur ++ items].
Proof.
  induction items as [|f rest IH]; intros i cur acc HB Hn Hne; [done|].
  cbn [grouping]. simpl in Hn.
  assert (length (cur ++ [f]) = S (length cur)) as Hlen
    by (rewrite length_app; simpl; lia).
  rewrite Hlen.
  rewrite (bool_decide_eq_false_2 (Z.of_nat (S (length cur)) = B)) by lia.
  rewrite orb_false_l.
  destruct rest as [|f' rest].
  - rewrite (bool_decide_eq_true_2 (Z.of_nat i = Z.of_nat n - 1))
      by (simpl in Hn; lia).
    cbn [grouping]. rewrite retained_cons, Hlen. cbn [retained filter].
    case_bool_decide; case_decide; try lia; try done.
    by rewrite app_nil_r.
  - rewrite (bool_decide_eq_false_2 (Z.of_nat i = Z.of_nat n - 1))
      by (simpl in Hn; lia).
    rewrite IH; try done; try (simpl in *; lia).
    by rewrite <- app_assoc.
Qed.

(** What [identify_bracketed_sets] returns, by sign of [bracket_count]. *)
Lemma bracketed_sets_of_pos (h : heap) l files B :
  h !! l = Some (PyStrs files) → 1 ≤ B →
  bracketed_sets_of h l B
  = Some (retained (chunks (Z.to_nat B) (sorted files))).
Proof.
  intros Hl HB. rewrite (bracketed_sets_of_grouping h l files) by done.
  rewrite grouping_chunks; try done; try (simpl; lia).
  by rewrite sorted_length.
Qed.

Lemma bracketed_sets_of_nonpos (h : heap) l files B :
  h !! l = Some (PyStrs files) → B ≤ 0 →
  bracketed_sets_of h l B = Some (retained [sorted files]).
Proof.
  intros Hl HB. rewrite (bracketed_sets_of_grouping h l files) by done.
  destruct (sorted files) as [|x s] eqn:Hs.
  - done.
  - rewrite grouping_nonpos; try done.
    rewrite <- (sorted_length files), Hs. done.
Qed.

Lemma retained_all gs :
  Forall (λ g, (2 ≤ length g)%nat) gs → retained gs = gs.
Proof.
  induction 1 as [|g gs Hg _ IH]; [done|].
  rewrite retained_cons, decide_True by done. by rewrite IH.
Qed.

Lemma retained_none gs :
  Forall (λ g, (length g < 2)%nat) gs → retained gs = [].
Proof.
  induction 1 as [|g gs Hg _ IH]; [done|].
  rewrite retained_cons, decide_False by lia. done.
Qed.

(** For [b >= 2]: the full chunks are all kept, the remainder is kept when
    it has two members or more. *)
Lemma retained_chunks b (s : list string) :
  (2 ≤ b)%nat →
  retained (chunks b s)
  = map (λ i, take b (drop (i * b) s)) (seq 0 (length s / b))
    ++ (if decide (2 ≤ length s mod b)%nat
        then [drop (length s / b * b) s] else []).
Proof.
  intros Hb. rewrite chunks_div_mod by lia. rewrite retained_app.
  pose proof (Nat.div_mod_eq (length s) b) as Hdm.
  pose proof (Nat.mod_upper_bound (length s) b ltac:(lia)) as Hr.
  f_equal.
  - apply retained_all. apply Forall_forall.
    intros g Hg. apply list_elem_of_fmap in Hg as (i & -> & Hi).
    apply elem_of_seq in Hi. rewrite length_take, length_drop. nia.
  - case_decide as H0.
    + rewrite decide_False by lia. done.
    + rewrite retained_cons, length_drop. cbn [retained filter].
      replace (length s - length s / b * b)%nat with (length s mod b)%nat by lia.
      by case_decide.
Qed.

Lemma full_chunks_size b (s : list string) :
  (0 < b)%nat →
  Forall (λ g, length g = b)
    (map (λ i, take b (drop (i * b) s)) (seq 0 (length s / b))).
Proof.
  intros Hb. apply Forall_forall. intros g Hg.
  apply list_elem_of_fmap in Hg as (i & -> & Hi).
  apply elem_of_seq in Hi. rewrite length_take, length_drop.
  pose proof (Nat.div_mod_eq (length s) b). nia.
Qed.

(** ** Claims about [identify_bracketed_sets] *)

(** C1.  For a bracket count [B >= 2] the result consists of the
    consecutive slices of size [B] of the sorted input, in order, followed
    by the remainder slice exactly when it has two members or more; a
    remainder of one file is dropped.  Seven files with [B = 3] give two
    sets, eight files give three. *)
Theorem C1_bracket_partition (h : heap) (l : loc) (files : list string) (B : Z) :
  h !! l = Some (PyStrs files) →
  2 ≤ B →
  let s := sorted files in
  let b := Z.to_nat B in
  let q := (length s / b)%nat in
  let r := (length s mod b)%nat in
  let full := map (λ i, take b (drop (i * b) s)) (seq 0 q) in
  bracketed_sets_of h l B
  = Some (full ++ (if decide (2 ≤ r)%nat then [drop (q * b) s] else []))
  ∧ Forall (λ g, length g = b) full
  ∧ length (drop (q * b) s) = r
  ∧ (length files = 7%nat → B = 3 →
     ∃ gs, bracketed_sets_of h l B = Some gs ∧ length gs = 2%nat)
  ∧ (length files = 8%nat → B = 3 →
     ∃ gs, bracketed_sets_of h l B = Some gs ∧ length gs = 3%nat).
Proof.
  intros Hl HB s b q r full.
  assert (bracketed_sets_of h l B
          = Some (full ++ (if decide (2 ≤ r)%nat then [drop (q * b) s] else [])))
    as Hres.
  { rewrite (bracketed_sets_of_pos h l files) by (done || lia).
    f_equal. apply retained_chunks. lia. }
  pose proof (Nat.div_mod_eq (length s) b) as Hdm.
  split_and!.
  - exact Hres.
  - apply full_chunks_size. lia.
  - rewrite length_drop. fold q r in Hdm. lia.
  - intros H7 ->. eexists. split; [exact Hres|].
    unfold full, q, r, b, s. rewrite length_app, length_map, length_seq.
    rewrite sorted_length, H7. done.
  - intros H8 ->. eexists. split; [exact Hres|].
    unfold full, q, r, b, s. rewrite length_app, length_map, length_seq.
    rewrite sorted_length, H8. done.
Qed.

Lemma C1_bracket_partition_witness :
  [PyStrs seven_files] !! 0%nat = Some (PyStrs seven_files)
  ∧ 2 ≤ 3
  ∧ bracketed_sets_of [PyStrs seven_files] 0%nat 3
    = Some [["IMG_001.jpg"; "IMG_002.jpg"; "IMG_003.jpg"];
            ["IMG_004.jpg"; "IMG_005.jpg"; "IMG_006.jpg"]]
  ∧ ∃ gs, bracketed_sets_of [PyStrs seven_files] 0%nat 3 = Some gs
          ∧ length gs = 2%nat.
Proof.
  split; [reflexivity|]. split; [lia|].
  pose proof (C1_bracket_partition [PyStrs seven_files] 0%nat seven_files 3
                eq_refl ltac:(lia)) as (Hres & _ & _ & Hseven & _).
  split; [exact Hres|exact (Hseven eq_refl eq_refl)].
Defined.

(** C6.  The result is empty for an empty input, for an input of fewer
    than two files, and for a bracket count of one. *)
Theorem C6_empty_results (h : heap) (l : loc) (files : list string) (B : Z) :
  h !! l = Some (PyStrs files) →
  files = [] ∨ (length files < 2)%nat ∨ B = 1 →
  bracketed_sets_of h l B = Some [].
Proof.
  intros Hl Hcase.
  assert ((length files < 2)%nat ∨ B = 1) as [Hshort| ->].
  { destruct Hcase as [->|[?|?]]; [left; simpl; lia|by left|by right]. }
  - destruct (decide (1 ≤ B)) as [HB|HB].
    + rewrite (bracketed_sets_of_pos h l files) by done. f_equal.
      apply retained_none. apply Forall_forall. intros g Hg.
      unfold chunks in Hg. apply list_elem_of_fmap in Hg as (i & -> & _).
      rewrite length_take, length_drop, sorted_length. lia.
    + rewrite (bracketed_sets_of_nonpos h l files) by (done || lia). f_equal.
      apply retained_none. constructor; [|constructor].
      by rewrite sorted_length.
  - rewrite (bracketed_sets_of_pos h l files) by (done || lia). f_equal.
    apply retained_none.
    eapply Forall_impl; [apply chunks_sizes; lia|].
    intros g Hg. cbn beta in Hg. lia.
Qed.

Lemma C6_empty_results_witness :
  [PyStrs seven_files] !! 0%nat = Some (PyStrs seven_files)
  ∧ (seven_files = [] ∨ (length seven_files < 2)%nat ∨ 1 = 1)
  ∧ bracketed_sets_of [PyStrs seven_files] 0%nat 1 = Some [].
Proof.
  split; [reflexivity|]. split; [right; right; reflexivity|].
  exact (C6_empty_results [PyStrs seven_files] 0%nat seven_files 1
           eq_refl (or_intror (or_intror eq_refl))).
Defined.

(** C2 as stated fails: eight files with a bracket count of three have
    remainder two, which lies in [2, B-1], yet three sets are returned
    while floor(8/3) is two. *)
Lemma C2_group_count_counterexample :
  2 ≤ Z.of_nat (length eight_files) mod 3 ≤ 3 - 1
  ∧ ∃ gs, bracketed_sets_of [PyStrs eight_files] 0%nat 3 = Some gs
      ∧ gs = [["IMG_001.jpg"; "IMG_002.jpg"; "IMG_003.jpg"];
              ["IMG_004.jpg"; "IMG_005.jpg"; "IMG_006.jpg"];
              ["IMG_007.jpg"; "IMG_008.jpg"]]
      ∧ Z.of_nat (length gs) ≠ Z.of_nat (length eight_files) / 3.
Proof.
  split; [done|]. eexists. split; [vm_compute; reflexivity|].
  split; [reflexivity|]. vm_compute. discriminate.
Qed.

(** C2, amended.  For [B >= 2] and [N] files the number of sets returned
    is floor(N/B) when [N mod B = 0], and floor(N/B) + 1 when [N mod B]
    lies between 2 and [B - 1]. *)
Theorem C2_group_count (h : heap) (l : loc) (files : list string) (B : Z) :
  h !! l = Some (PyStrs files) →
  2 ≤ B →
  let N := Z.of_nat (length files) in
  ∃ gs, bracketed_sets_of h l B = Some gs
    ∧ (N mod B = 0 → Z.of_nat (length gs) = N / B)
    ∧ (2 ≤ N mod B ≤ B - 1 → Z.of_nat (length gs) = N / B + 1).
Proof.
  intros Hl HB N.
  rewrite (bracketed_sets_of_pos h l files) by (done || lia).
  eexists. split; [reflexivity|].
  rewrite retained_chunks by lia.
  rewrite length_app, length_map, length_seq, sorted_length.
  assert (Z.of_nat (length files / Z.to_nat B) = N / B) as Hq.
  { rewrite Nat2Z.inj_div. unfold N. f_equal. lia. }
  assert (Z.of_nat (length files mod Z.to_nat B) = N mod B) as Hr.
  { rewrite Nat2Z.inj_mod. unfold N. f_equal. lia. }
  split; intros Hmod; case_decide; simpl length; lia.
Qed.

Lemma C2_group_count_witness :
  [PyStrs eight_files] !! 0%nat = Some (PyStrs eight_files)
  ∧ 2 ≤ 3
  ∧ ∃ gs, bracketed_sets_of [PyStrs eight_files] 0%nat 3 = Some gs
      ∧ (Z.of_nat (length eight_files) mod 3 = 0 →
         Z.of_nat (length gs) = Z.of_nat (length eight_files) / 3)
      ∧ (2 ≤ Z.of_nat (length eight_files) mod 3 ≤ 3 - 1 →
         Z.of_nat (length gs) = Z.of_nat (length eight_files) / 3 + 1).
Proof.
  split; [reflexivity|]. split; [lia|].
  exact (C2_group_count [PyStrs eight_files] 0%nat eight_files 3
           eq_refl ltac:(lia)).
Defined.

(** C7 as stated fails for a bracket count below one: with a count of zero
    two files form one set of two, more than the count. *)
Lemma C7_group_sizes_counterexample :
  bracketed_sets_of [PyStrs ["b.jpg"; "a.jpg"]] 0%nat 0
  = Some [["a.jpg"; "b.jpg"]]
  ∧ ¬ Z.of_nat (length ["a.jpg"; "b.jpg"]) ≤ 0.
Proof. split; [vm_compute; reflexivity|]. simpl. lia. Qed.

Lemma sorted_slice_Sorted b i xs :
  Sorted String.le (take b (drop i (sorted xs))).
Proof.
  apply StronglySorted_Sorted.
  pose proof (sorted_StronglySorted xs) as Hs.
  rewrite <- (take_drop i (sorted xs)) in Hs.
  apply StronglySorted_app_1_r in Hs.
  rewrite <- (take_drop b (drop i (sorted xs))) in Hs.
  by apply StronglySorted_app_1_l in Hs.
Qed.

(** C7, amended.  Every returned set has at least two members and lists
    its files in sorted order, for every bracket count; for a bracket
    count of at least one it has no more members than the count. *)
Theorem C7_group_sizes (h : heap) (l : loc) (files : list string) (B : Z) :
  h !! l = Some (PyStrs files) →
  ∃ gs, bracketed_sets_of h l B = Some gs
    ∧ Forall (λ g, 2 ≤ Z.of_nat (length g)
                   ∧ (1 ≤ B → Z.of_nat (length g) ≤ B)
                   ∧ Sorted String.le g) gs.
Proof.
  intros Hl. destruct (decide (1 ≤ B)) as [HB|HB].
  - rewrite (bracketed_sets_of_pos h l files) by done.
    eexists. split; [reflexivity|].
    apply Forall_forall. intros g Hg.
    pose proof (retained_sizes (chunks (Z.to_nat B) (sorted files))) as Hsz.
    rewrite Forall_forall in Hsz. specialize (Hsz g Hg).
    apply retained_sub in Hg.
    pose proof (chunks_sizes (Z.to_nat B) (sorted files) ltac:(lia)) as Hb.
    rewrite Forall_forall in Hb. specialize (Hb g Hg).
    split_and!; [lia|lia|].
    unfold chunks in Hg. apply list_elem_of_fmap in Hg as (i & -> & _).
    apply sorted_slice_Sorted.
  - rewrite (bracketed_sets_of_nonpos h l files) by (done || lia).
    eexists. split; [reflexivity|].
    apply Forall_forall. intros g Hg.
    pose proof (retained_sizes [sorted files]) as Hsz.
    rewrite Forall_forall in Hsz. specialize (Hsz g Hg).
    apply retained_sub in Hg. apply list_elem_of_singleton in Hg as ->.
    split_and!; [lia|lia|apply sorted_Sorted].
Qed.

Lemma C7_group_sizes_witness :
  [PyStrs eight_files] !! 0%nat = Some (PyStrs eight_files)
  ∧ ∃ gs, bracketed_sets_of [PyStrs eight_files] 0%nat 3 = Some gs
      ∧ Forall (λ g, 2 ≤ Z.of_nat (length g)
                     ∧ (1 ≤ 3 → Z.of_nat (length g) ≤ 3)
                     ∧ Sorted String.le g) gs.
Proof.
  split; [reflexivity|].
  exact (C7_group_sizes [PyStrs eight_files] 0%nat eight_files 3 eq_refl).
Defined.

(** C9 as stated fails for a bracket count of one: every file closes a
    set of its own and all of them are dropped, so the concatenation of the
    result is neither the sorted input nor the sorted input without its
    last file. *)
Lemma C9_groups_are_slices_counterexample :
  bracketed_sets_of [PyStrs ["b.jpg"; "a.jpg"]] 0%nat 1 = Some []
  ∧ sorted ["b.jpg"; "a.jpg"] = ["a.jpg"; "b.jpg"]
  ∧ concat (@nil (list string)) ≠ ["a.jpg"; "b.jpg"]
  ∧ concat (@nil (list string)) ≠ ["a.jpg"].
Proof. split_and!; try done; vm_compute; reflexivity. Qed.

(** Groups whose concatenation is a prefix of [s] are consecutive slices
    of [s], each starting where the previous one ends. *)
Lemma prefix_groups_slices {A} (gs : list (list A)) (s tail : list A) i g :
  concat gs ++ tail = s →
  gs !! i = Some g →
  g = take (length g) (drop (length (concat (take i gs))) s).
Proof.
  intros <- Hi.
  rewrite <- (take_drop_middle gs i g Hi) at 2.
  rewrite concat_app, concat_cons, <- !app_assoc.
  rewrite drop_app_length. by rewrite take_app_length.
Qed.

Lemma elem_of_concat {A} (x : A) (gs : list (list A)) :
  x ∈ concat gs ↔ ∃ g, x ∈ g ∧ g ∈ gs.
Proof.
  induction gs as [|g0 gs IH]; cbn [concat].
  - split; [by intros ?%elem_of_nil|by intros (? & _ & ?%elem_of_nil)].
  - rewrite elem_of_app, IH. split.
    + intros [?|(g & ? & ?)]; [exists g0|exists g]; split; try done;
        [apply list_elem_of_here|by apply list_elem_of_further].
    + intros (g & Hx & [->|Hg]%elem_of_cons); [by left|right; eauto].
Qed.

(** Groups whose concatenation has no repetition share no member. *)
Lemma NoDup_concat_disjoint {A} (gs : list (list A)) :
  NoDup (concat gs) →
  ∀ i j g g' x, i ≠ j → gs !! i = Some g → gs !! j = Some g' →
                x ∈ g → x ∉ g'.
Proof.
  induction gs as [|g0 gs IH]; intros Hnd i j g g' x Hij Hi Hj Hx Hx';
    [done|].
  cbn [concat] in Hnd. apply NoDup_app in Hnd as (_ & Hdis & Hnd).
  destruct i as [|i], j as [|j]; simplify_eq/=.
  - apply (Hdis x Hx). apply list_elem_of_lookup_2 in Hj.
    apply elem_of_concat. eauto.
  - apply (Hdis x Hx'). apply list_elem_of_lookup_2 in Hi.
    apply elem_of_concat. eauto.
  - eapply (IH Hnd i j); eauto.
Qed.

(** C9, amended.  For a bracket count other than one, the returned sets
    are consecutive slices of the sorted input taken in order, each
    starting where the previous one ends; their concatenation is the
    sorted input, or the sorted input without its last file; and when the
    input lists no file twice, no file is in two sets. *)
Theorem C9_groups_are_slices (h : heap) (l : loc) (files : list string) (B : Z) :
  h !! l = Some (PyStrs files) →
  B ≠ 1 →
  ∃ gs, bracketed_sets_of h l B = Some gs
    ∧ (concat gs = sorted files ∨ ∃ x, concat gs ++ [x] = sorted files)
    ∧ (∀ i g, gs !! i = Some g →
         g = take (length g)
               (drop (length (concat (take i gs))) (sorted files)))
    ∧ (NoDup files →
       ∀ i j g g' x, i ≠ j → gs !! i = Some g → gs !! j = Some g' →
                     x ∈ g → x ∉ g').
Proof.
  intros Hl HB.
  assert (∃ gs tail, bracketed_sets_of h l B = Some gs
            ∧ concat gs ++ tail = sorted files
            ∧ (length tail ≤ 1)%nat) as (gs & tail & Hres & Hcat & Htail).
  { destruct (decide (1 ≤ B)) as [Hpos|Hneg].
    - rewrite (bracketed_sets_of_pos h l files) by done.
      pose proof (chunks_concat (Z.to_nat B) (sorted files) ltac:(lia)) as Hc.
      rewrite retained_chunks by lia.
      rewrite chunks_div_mod in Hc by lia.
      pose proof (Nat.div_mod_eq (length (sorted files)) (Z.to_nat B)) as Hdm.
      set (q := (length (sorted files) / Z.to_nat B)%nat) in *.
      set (r := (length (sorted files) mod Z.to_nat B)%nat) in *.
      destruct (decide (r = 0)%nat) as [H0|H0].
      + rewrite (decide_False (P := (2 ≤ r)%nat)) by lia.
        eexists _, []. split; [reflexivity|]. split; [|simpl; lia].
        rewrite (app_nil_r (concat _)). exact Hc.
      + destruct (decide (2 ≤ r)%nat) as [H2|H2].
        * eexists _, []. split; [reflexivity|]. split; [|simpl; lia].
          rewrite (app_nil_r (concat _)). exact Hc.
        * eexists _, (drop (q * Z.to_nat B) (sorted files)).
          split; [reflexivity|]. split.
          -- rewrite concat_app in Hc. cbn [concat] in Hc.
             rewrite app_nil_r in Hc. rewrite app_nil_r. exact Hc.
          -- rewrite length_drop. lia.
    - rewrite (bracketed_sets_of_nonpos h l files) by (done || lia).
      rewrite retained_cons. cbn [retained filter].
      case_decide as H2.
      + eexists _, []. split; [reflexivity|]. split; [|simpl; lia].
        simpl. by rewrite !app_nil_r.
      + eexists _, (sorted files). split; [reflexivity|]. split; [done|lia]. }
  exists gs. split_and!.
  - exact Hres.
  - destruct tail as [|x [|? ?]]; [left|right|simpl in Htail; lia].
    + by rewrite app_nil_r in Hcat.
    + by exists x.
  - intros i g Hi. by eapply prefix_groups_slices.
  - intros Hnd. apply NoDup_concat_disjoint.
    assert (NoDup (sorted files)) as Hs by (by rewrite sorted_perm).
    rewrite <- Hcat in Hs. by apply NoDup_app in Hs as (? & _ & _).
Qed.

Lemma C9_groups_are_slices_witness :
  [PyStrs seven_files] !! 0%nat = Some (PyStrs seven_files)
  ∧ 3 ≠ 1
  ∧ ∃ gs, bracketed_sets_of [PyStrs seven_files] 0%nat 3 = Some gs
      ∧ (concat gs = sorted seven_files
         ∨ ∃ x, concat gs ++ [x] = sorted seven_files)
      ∧ (∀ i g, gs !! i = Some g →
           g = take (length g)
                 (drop (length (concat (take i gs))) (sorted seven_files)))
      ∧ (NoDup seven_files →
         ∀ i j g g' x, i ≠ j → gs !! i = Some g → gs !! j = Some g' →
                       x ∈ g → x ∉ g').
Proof.
  split; [reflexivity|]. split; [lia|].
  exact (C9_groups_are_slices [PyStrs seven_files] 0%nat seven_files 3
           eq_refl ltac:(lia)).
Defined.

(** C10.  The call sorts the caller's list object in place: afterwards the
    object at the argument's address holds the sorted files.  The returned
    list and the sets it refers to are objects created by the call, none of
    them the argument, and every other object is left as it was. *)
Theorem C10_sorts_in_place (h : heap) (l : loc) (files : list string) (B : Z) :
  h !! l = Some (PyStrs files) →
  ∃ (h' : heap) (r : loc) (rs : list loc),
    identify_bracketed_sets l B h = Some (r, h')
    ∧ h' !! l = Some (PyStrs (sorted files))
    ∧ Sorted String.le (sorted files)
    ∧ sorted files ≡ₚ files
    ∧ r ≠ l ∧ h !! r = None
    ∧ h' !! r = Some (PyRefs rs)
    ∧ Forall (λ a, a ≠ l ∧ h !! a = None) rs
    ∧ (∀ a, a ≠ l → (a < length h)%nat → h' !! a = h !! a).
Proof.
  intros Hl. pose proof (lookup_lt_Some _ _ _ Hl) as Hlt.
  destruct (identify_bracketed_sets_run h l files B Hl)
    as (h' & rs & Hrun & Hl' & Hr & Hrs & _ & Hfr).
  exists h', (length h), rs. split_and!; try done.
  - apply sorted_Sorted.
  - apply sorted_perm.
  - lia.
  - by apply lookup_ge_None.
  - eapply Forall_impl; [exact Hrs|]. intros a Ha. cbn beta in Ha.
    split; [lia|]. apply lookup_ge_None. lia.
  - intros a Hne Ha. by apply Hfr.
Qed.

Lemma C10_sorts_in_place_witness :
  [PyStrs seven_files] !! 0%nat = Some (PyStrs seven_files)
  ∧ ∃ (h' : heap) (r : loc) (rs : list loc),
      identify_bracketed_sets 0%nat 3 [PyStrs seven_files] = Some (r, h')
      ∧ h' !! 0%nat = Some (PyStrs (sorted seven_files))
      ∧ Sorted String.le (sorted seven_files)
      ∧ sorted seven_files ≡ₚ seven_files
      ∧ r ≠ 0%nat ∧ [PyStrs seven_files] !! r = None
      ∧ h' !! r = Some (PyRefs rs)
      ∧ Forall (λ a, a ≠ 0%nat ∧ [PyStrs seven_files] !! a = None) rs
      ∧ (∀ a, a ≠ 0%nat → (a < length [PyStrs seven_files])%nat →
              h' !! a = [PyStrs seven_files] !! a).
Proof.
  split; [reflexivity|].
  exact (C10_sorts_in_place [PyStrs seven_files] 0%nat seven_files 3 eq_refl).
Defined.

(** ** Slices and ranges *)

Lemma py_slice_nat {A} (xs : list A) (i b : nat) :
  py_slice xs (Z.of_nat i) (Z.of_nat i + Z.of_nat b) = take b (drop i xs).
Proof.
  unfold py_slice.
  rewrite (proj2 (Z.ltb_ge _ _)) by lia.
  rewrite (proj2 (Z.ltb_ge (Z.of_nat i) 0)) by lia.
  destruct (decide (i ≤ length xs)%nat) as [Hi|Hi].
  - rewrite (Z.min_l (Z.of_nat i)) by lia. rewrite Nat2Z.id.
    destruct (decide (i + b ≤ length xs)%nat).
    + rewrite Z.min_l by lia. f_equal. lia.
    + rewrite Z.min_r by lia.
      rewrite (take_ge _ b) by (rewrite length_drop; lia).
      apply take_ge. rewrite length_drop. lia.
  - rewrite !Z.min_r by lia. rewrite Z.sub_diag. simpl.
    rewrite (drop_ge xs i) by lia. by rewrite take_nil.
Qed.

Lemma py_range_steps (n b : nat) :
  (0 < b)%nat →
  py_range 0 (Z.of_nat n) (Z.of_nat b)
  = map (λ k, Z.of_nat (k * b)) (seq 0 (chunk_count b n)).
Proof.
  intros Hb. unfold py_range.
  rewrite (proj2 (Z.ltb_lt _ _)) by lia.
  replace (Z.to_nat ((Z.of_nat n - 0 + Z.of_nat b - 1) / Z.of_nat b))
    with (chunk_count b n).
  - apply map_ext. intros k. lia.
  - unfold chunk_count.
    replace (Z.of_nat n - 0 + Z.of_nat b - 1) with (Z.of_nat (n + b - 1)) by lia.
    by rewrite <- Nat2Z.inj_div, Nat2Z.id.
Qed.

(** The slices the batch loop takes are the chunks of the input. *)
Lemma batch_slices_chunks {A} (xs : list A) (b : nat) :
  (0 < b)%nat →
  map (λ i, py_slice xs i (i + Z.of_nat b))
      (py_range 0 (Z.of_nat (length xs)) (Z.of_nat b))
  = chunks b xs.
Proof.
  intros Hb. rewrite py_range_steps by done. rewrite map_map.
  unfold chunks. apply map_ext. intros k. apply py_slice_nat.
Qed.

Lemma chunks_lookup {A} b (xs : list A) i :
  (i < length (chunks b xs))%nat →
  chunks b xs !! i
  = Some (take (min ((i + 1) * b) (length xs) - i * b) (drop (i * b) xs)).
Proof.
  unfold chunks. rewrite length_map, length_seq. intros Hi.
  change (map ?f ?l) with (f <$> l).
  rewrite list_lookup_fmap, lookup_seq_lt by done. simpl. f_equal.
  destruct (decide ((i + 1) * b ≤ length xs)%nat).
  - f_equal. lia.
  - rewrite (take_ge _ b) by (rewrite length_drop; lia).
    symmetry. apply take_ge. rewrite length_drop. lia.
Qed.

Lemma chunks_full_before_last {A} b (xs : list A) i g :
  (0 < b)%nat →
  chunks b xs !! i = Some g →
  (S i < length (chunks b xs))%nat →
  length g = b.
Proof.
  intros Hb Hg Hi. rewrite chunks_lookup in Hg by lia.
  injection Hg as <-.
  unfold chunks in Hi. rewrite length_map, length_seq in Hi.
  rewrite chunk_count_div in Hi by done.
  pose proof (Nat.div_mod_eq (length xs) b).
  pose proof (Nat.mod_upper_bound (length xs) b ltac:(lia)).
  rewrite length_take, length_drop. case_decide; nia.
Qed.

(** ** The external side *)

Lemma bind_inv {S A B} (m : St S A) (k : A → St S B) s b s'' :
  bind m k s = Some (b, s'') →
  ∃ a s', m s = Some (a, s') ∧ k a s' = Some (b, s'').
Proof. unfold bind. destruct (m s) as [[a s']|]; [eauto|done]. Qed.

Section ExternalProps.
Context {W : Type} `{!OS W}.

(** A call of [run_photoshop_script] that returns leaves exactly one entry
    in the history: its arguments, its result and the world as it was on
    return. *)
Lemma run_photoshop_script_inv pp jsx params (s : io W) ok s' :
  run_photoshop_script pp jsx params s = Some (ok, s') →
  ∃ w', s' = Io w' (history s ++ [Invocation jsx params ok w']).
Proof.
  destruct s as [w hist]. unfold run_photoshop_script.
  intros (valid & s0 & Hvalid & Hrest)%bind_inv.
  unfold is_valid_file, observe, act in Hvalid. cbn [world history] in Hvalid.
  injection Hvalid as <- <-.
  destruct (os_path_isfile jsx w); cbn [negb] in Hrest.
  - apply bind_inv in Hrest as (script & s1 & Hstage & Hrest).
    assert (∃ w1, s1 = Io w1 hist) as [w1 ->].
    { destruct params as [d|]; [|injection Hstage as _ <-; eauto].
      destruct (params_truthy (Some d)); [|injection Hstage as _ <-; eauto].
      unfold attempt in Hstage. cbn [world history] in Hstage.
      destruct (write_temp_script d jsx w) as [[p w1]|]; [|done].
      injection Hstage as _ <-. eauto. }
    unfold bind, act, effect, record_invocation, ret in Hrest.
    cbn [world history] in Hrest.
    destruct (popen_communicate _ w1) as [rc w2]. cbn [world history] in Hrest.
    injection Hrest as <- <-. eauto.
  - unfold bind, record_invocation, ret in Hrest. cbn [world history] in Hrest.
    injection Hrest as <- <-. eauto.
Qed.

(** It returns whenever the temporary files can be written: nothing else
    in it raises. *)
Lemma run_photoshop_script_returns pp jsx params (s : io W) :
  temp_files_writable →
  ∃ ok s', run_photoshop_script pp jsx params s = Some (ok, s').
Proof.
  intros Hw. destruct s as [w hist]. unfold run_photoshop_script.
  unfold bind at 1. unfold is_valid_file, observe, act. cbn [world history].
  destruct (os_path_isfile jsx w); cbn [negb].
  - set (stage := match params with
                  | Some d => if params_truthy params
                              then attempt (write_temp_script d jsx)
                              else ret jsx
                  | None => ret jsx
                  end).
    assert (∃ script w1, stage (Io w hist) = Some (script, Io w1 hist))
      as (script & w1 & Hstage).
    { unfold stage. destruct params as [d|]; [|by eexists _, _].
      destruct (params_truthy (Some d)); [|by eexists _, _].
      unfold attempt. cbn [world history].
      destruct (Hw d jsx w) as [[p w1] ->]. by eexists _, _. }
    erewrite bind_run by exact Hstage.
    unfold bind, act, effect, record_invocation, ret. cbn [world history].
    destruct (popen_communicate _ w1) as [rc w2]. cbn [world history].
    by eexists _, _.
  - unfold bind, record_invocation, ret. cbn [world history].
    by eexists _, _.
Qed.

(** An exception raised while the temporary files are written is not
    caught. *)
Lemma run_photoshop_script_temp_raises pp jsx d (w : W) hist :
  os_path_isfile jsx w = true →
  d ≠ ∅ →
  write_temp_script d jsx w = None →
  run_photoshop_script pp jsx (Some d) (Io w hist) = None.
Proof.
  intros Hfile Hd Hwrite. unfold run_photoshop_script.
  unfold bind at 1. unfold is_valid_file, observe, act. cbn [world history].
  rewrite Hfile. cbn [negb params_truthy].
  rewrite bool_decide_eq_false_2 by done. cbn [negb].
  unfold bind at 1. unfold attempt. cbn [world history]. by rewrite Hwrite.
Qed.

Lemma count_outputs_run out files :
  ∀ c (s : io W),
    count_outputs out files c s
    = Some (c + Z.of_nat (length (filter
               (λ file, os_path_exists (join out (basename file)) (world s) = true)
               files)),
            s).
Proof.
  induction files as [|f files IH]; intros c [w hist].
  { simpl. unfold ret. do 2 f_equal. lia. }
  cbn [count_outputs]. unfold bind at 1. unfold observe, act.
  cbn [world history]. rewrite IH. cbn [world]. rewrite filter_cons.
  destruct (os_path_exists (join out (basename f)) w) eqn:He.
  - rewrite decide_True by done. simpl length. do 2 f_equal. lia.
  - rewrite decide_False by done. done.
Qed.

Lemma ensure_dir_inv out (s : io W) u s' :
  ensure_dir out s = Some (u, s') → ∃ w', s' = Io w' (history s).
Proof.
  destruct s as [w hist]. unfold ensure_dir, bind, observe, attempt, act, ret.
  cbn [world history]. destruct (os_path_exists out w); cbn.
  - intros [= <- <-]. eauto.
  - destruct (os_makedirs out w) as [w'|]; [|done].
    intros [= <- <-]. eauto.
Qed.

Lemma ensure_dir_returns out (s : io W) :
  can_ensure_dir out (world s) → ∃ s', ensure_dir out s = Some (tt, s').
Proof.
  destruct s as [w hist]. unfold ensure_dir, bind, observe, attempt, act, ret.
  cbn [world history]. intros [Hthere|[w' Hmade]].
  - rewrite Hthere. cbn. eauto.
  - destruct (os_path_exists out w); cbn; [eauto|].
    rewrite Hmade. eauto.
Qed.


Lemma batch_loop_inv pp jsx out params input bsz starts :
  ∀ c (s : io W) c' s',
    batch_loop pp jsx out params input bsz starts c s = Some (c', s') →
    ∃ new,
      history s' = history s ++ new
      ∧ map input_files_of new
        = map (λ i, py_slice input i (i + bsz)) starts
      ∧ c' = c + Z.of_nat (length (concat (map (batch_unit_ok_files out) new))).
Proof.
  induction starts as [|i rest IH]; intros c s c' s' Hrun.
  { injection Hrun as <- <-. exists []. rewrite app_nil_r.
    split_and!; try done. simpl. lia. }
  cbn [batch_loop] in Hrun.
  set (batch := py_slice input i (i + bsz)) in *.
  set (bparams := <["inputFiles":=VStrs batch]> params) in *.
  apply bind_inv in Hrun as (ok & s1 & Hcall & Hrun).
  apply run_photoshop_script_inv in Hcall as [w1 ->].
  set (u := Invocation jsx (Some bparams) ok w1) in *.
  assert (input_files_of u = batch) as Hin.
  { unfold input_files_of, u, bparams. cbn [inv_params].
    by rewrite lookup_insert_eq. }
  apply bind_inv in Hrun as (c1 & s2 & Hcount & Hrun).
  assert (s2 = Io w1 (history s ++ [u])
          ∧ c1 = c + Z.of_nat (length (batch_unit_ok_files out u)))
    as [-> Hc1].
  { unfold batch_unit_ok_files. rewrite Hin. cbn [inv_ok u inv_after].
    destruct ok.
    - rewrite count_outputs_run in Hcount. by injection Hcount as <- <-.
    - injection Hcount as <- <-. split; [done|]. simpl. lia. }
  apply bind_inv in Hrun as (? & s3 & Hsleep & Hrun).
  unfold effect, act in Hsleep. cbn [world history] in Hsleep.
  injection Hsleep as _ <-.
  apply IH in Hrun as (new & Hhist & Hfiles & Hc').
  exists (u :: new). split_and!.
  - rewrite Hhist. cbn [history]. by rewrite <- app_assoc.
  - cbn [map]. by rewrite Hin, Hfiles.
  - cbn [map concat]. rewrite length_app. lia.
Qed.

Lemma batch_loop_returns pp jsx out params input bsz starts :
  temp_files_writable →
  ∀ c (s : io W),
    ∃ c' s', batch_loop pp jsx out params input bsz starts c s = Some (c', s').
Proof.
  intros Hw. induction starts as [|i rest IH]; intros c s; [by eexists _, _|].
  cbn [batch_loop].
  destruct (run_photoshop_script_returns pp jsx
              (Some (<["inputFiles":=VStrs (py_slice input i (i + bsz))]> params))
              s Hw) as (ok & s1 & Hcall).
  erewrite bind_run by exact Hcall.
  assert (∃ c1, (if ok then count_outputs out (py_slice input i (i + bsz)) c
                 else ret c) s1 = Some (c1, s1)) as [c1 Hcount].
  { destruct ok; [rewrite count_outputs_run|]; by eexists. }
  erewrite bind_run by exact Hcount.
  unfold bind at 1. unfold effect, act. apply IH.
Qed.

Lemma hdr_loop_inv pp jsx out rg sets :
  ∀ c (s : io W) c' s',
    hdr_loop pp jsx out rg sets c s = Some (c', s') →
    Forall (λ g, g ≠ []) sets
    ∧ ∃ new,
        history s' = history s ++ new
        ∧ map input_files_of new = sets
        ∧ Forall (λ u, output_file_of u
                       = expected_hdr_output out (input_files_of u)) new
        ∧ c' = c + Z.of_nat (length (filter (λ u, hdr_unit_ok u = true) new)).
Proof.
  induction sets as [|g rest IH]; intros c s c' s' Hrun.
  { injection Hrun as <- <-. split; [done|]. exists []. rewrite app_nil_r.
    split_and!; try done. simpl. lia. }
  destruct g as [|first more]; [done|].
  cbn [hdr_loop first_of] in Hrun.
  erewrite bind_run in Hrun by apply ret_run.
  set (output_file := join out ((splitext (basename first)).1 +:+ "_HDR.tif"))
    in *.
  set (params := <["bit32":=VBool true]> _) in *.
  apply bind_inv in Hrun as (ok & s1 & Hcall & Hrun).
  apply run_photoshop_script_inv in Hcall as [w1 ->].
  set (u := Invocation jsx (Some params) ok w1) in *.
  assert (input_files_of u = first :: more) as Hin.
  { unfold input_files_of, u, params. cbn [inv_params].
    by rewrite !lookup_insert_ne, lookup_insert_eq by done. }
  assert (output_file_of u = output_file) as Hout.
  { unfold output_file_of, u, params. cbn [inv_params].
    by rewrite !lookup_insert_ne, lookup_insert_eq by done. }
  apply bind_inv in Hrun as (c1 & s2 & Hcount & Hrun).
  assert (s2 = Io w1 (history s ++ [u])
          ∧ c1 = if hdr_unit_ok u then c + 1 else c) as [-> Hc1].
  { unfold hdr_unit_ok. rewrite Hout. cbn [inv_ok u inv_after].
    destruct ok; [|by injection Hcount as <- <-].
    unfold bind, observe, act, ret in Hcount. cbn [world history] in Hcount.
    by injection Hcount as <- <-. }
  apply bind_inv in Hrun as (? & s3 & Hsleep & Hrun).
  unfold effect, act in Hsleep. cbn [world history] in Hsleep.
  injection Hsleep as _ <-.
  apply IH in Hrun as (Hrest & new & Hhist & Hfiles & Hexp & Hc').
  split; [by constructor|].
  exists (u :: new). split_and!.
  - rewrite Hhist. cbn [history]. by rewrite <- app_assoc.
  - cbn [map]. by rewrite Hin, Hfiles.
  - constructor; [|done]. by rewrite Hout, Hin.
  - rewrite filter_cons. rewrite Hc1 in Hc'.
    destruct (hdr_unit_ok u).
    + rewrite decide_True by done. simpl length. lia.
    + rewrite decide_False by done. lia.
Qed.

Lemma hdr_loop_returns pp jsx out rg sets :
  temp_files_writable →
  Forall (λ g, g ≠ []) sets →
  ∀ c (s : io W), ∃ c' s', hdr_loop pp jsx out rg sets c s = Some (c', s').
Proof.
  intros Hw Hne. induction Hne as [|g rest Hg _ IH]; intros c s;
    [by eexists _, _|].
  destruct g as [|first more]; [done|].
  cbn [hdr_loop first_of]. erewrite bind_run by apply ret_run.
  set (output_file := join out ((splitext (basename first)).1 +:+ "_HDR.tif")).
  set (params := <["bit32":=VBool true]> _).
  destruct (run_photoshop_script_returns pp jsx (Some params) s Hw)
    as (ok & s1 & Hcall).
  erewrite bind_run by exact Hcall.
  assert (∃ c1, (if ok then
                   bind (observe (os_path_exists output_file))
                        (λ there, ret (if there then c + 1 else c))
                 else ret c) s1 = Some (c1, s1)) as [c1 Hcount].
  { destruct ok; [|by eexists]. destruct s1 as [w1 h1].
    unfold bind, observe, act, ret. cbn [world history]. by eexists. }
  erewrite bind_run by exact Hcount.
  unfold bind at 1. unfold effect, act. apply IH.
Qed.

(** An empty set makes the loop raise: [bracketed_set[0]] is an
    [IndexError], unless an earlier invocation raised already. *)
Lemma hdr_loop_raises pp jsx out rg sets :
  ∀ c (s : io W),
    Exists (λ g, g = []) sets → hdr_loop pp jsx out rg sets c s = None.
Proof.
  intros c s Hex.
  destruct (hdr_loop pp jsx out rg sets c s) as [[c' s']|] eqn:Hrun; [|done].
  apply hdr_loop_inv in Hrun as [Hne _].
  apply Exists_exists in Hex as (g & Hg & ->).
  rewrite Forall_forall in Hne. by specialize (Hne [] Hg).
Qed.


Lemma batch_ok_files_le out (new : list (invocation W)) :
  (length (concat (map (batch_unit_ok_files out) new))
   ≤ length (concat (map input_files_of new)))%nat.
Proof.
  induction new as [|u new IH]; [done|].
  cbn [map concat]. rewrite !length_app.
  assert (length (batch_unit_ok_files out u) ≤ length (input_files_of u))%nat.
  { unfold batch_unit_ok_files. destruct (inv_ok u); [|simpl; lia].
    apply length_filter. }
  lia.
Qed.

Lemma batch_edit_photos_inv pp input out e1 e2 e3 (s : io W) c t s' :
  batch_edit_photos pp input out e1 e2 e3 s = Some ((c, t), s') →
  ∃ new,
    history s' = history s ++ new
    ∧ map input_files_of new = chunks 10 input
    ∧ t = Z.of_nat (length input)
    ∧ c = Z.of_nat (length (concat (map (batch_unit_ok_files out) new))).
Proof.
  unfold batch_edit_photos.
  intros (? & s0 & Hdir & Hrun)%bind_inv.
  apply ensure_dir_inv in Hdir as [w0 ->].
  apply bind_inv in Hrun as (c1 & s1 & Hloop & Hret).
  injection Hret as <- <- <-.
  apply batch_loop_inv in Hloop as (new & Hhist & Hfiles & Hc).
  exists new. split_and!; try done.
  rewrite Hfiles. apply (batch_slices_chunks input 10). lia.
Qed.

Lemma batch_edit_photos_returns pp input out e1 e2 e3 (s : io W) :
  temp_files_writable →
  can_ensure_dir out (world s) →
  ∃ r s', batch_edit_photos pp input out e1 e2 e3 s = Some (r, s').
Proof.
  intros Hw Hdir. unfold batch_edit_photos.
  destruct (ensure_dir_returns out s Hdir) as [s0 Hs0].
  erewrite bind_run by exact Hs0.
  edestruct batch_loop_returns as (c & s1 & Hloop); [exact Hw|].
  erewrite bind_run by exact Hloop. by eexists _, _.
Qed.

Lemma merge_hdr_photos_inv pp sets out rg (s : io W) c t s' :
  merge_hdr_photos pp sets out rg s = Some ((c, t), s') →
  Forall (λ g, g ≠ []) sets
  ∧ ∃ new,
      history s' = history s ++ new
      ∧ map input_files_of new = sets
      ∧ t = Z.of_nat (length sets)
      ∧ Forall (λ u, output_file_of u
                     = expected_hdr_output out (input_files_of u)) new
      ∧ c = Z.of_nat (length (filter (λ u, hdr_unit_ok u = true) new)).
Proof.
  unfold merge_hdr_photos.
  intros (? & s0 & Hdir & Hrun)%bind_inv.
  apply ensure_dir_inv in Hdir as [w0 ->].
  apply bind_inv in Hrun as (c1 & s1 & Hloop & Hret).
  injection Hret as <- <- <-.
  apply hdr_loop_inv in Hloop as (Hne & new & Hhist & Hfiles & Hexp & Hc).
  split; [done|]. exists new. split_and!; try done; lia.
Qed.

Lemma merge_hdr_photos_returns pp sets out rg (s : io W) :
  temp_files_writable →
  can_ensure_dir out (world s) →
  Forall (λ g, g ≠ []) sets →
  ∃ r s', merge_hdr_photos pp sets out rg s = Some (r, s').
Proof.
  intros Hw Hdir Hne. unfold merge_hdr_photos.
  destruct (ensure_dir_returns out s Hdir) as [s0 Hs0].
  erewrite bind_run by exact Hs0.
  edestruct hdr_loop_returns as (c & s1 & Hloop); [exact Hw|exact Hne|].
  erewrite bind_run by exact Hloop. by eexists _, _.
Qed.
End ExternalProps.

(** ** Claims about the batch and HDR loops *)

Section ExternalTheorems.
Context {W : Type} `{!OS W}.

(** C3.  Whenever [batch_edit_photos] returns, it has handed Photoshop
    exactly ceil(N/10) batches; batch [i] is the slice of the input from
    index [10 i] up to [min (10 (i+1)) N]; every batch but the last has ten
    files and the last has between one and ten; the batches concatenated in
    order are the input.  It returns whenever the output directory exists
    or can be created and the temporary files can be written. *)
Theorem C3_batch_partition pp input out e1 e2 e3 (s : io W) :
  (∀ r s',
     batch_edit_photos pp input out e1 e2 e3 s = Some (r, s') →
     ∃ new,
       history s' = history s ++ new
       ∧ let batches := map input_files_of new in
         let N := length input in
         length batches = ((N + 9) / 10)%nat
         ∧ (N ≤ length batches * 10 < N + 10)%nat
         ∧ (∀ i, (i < length batches)%nat →
              batches !! i
              = Some (take (min ((i + 1) * 10) N - i * 10) (drop (i * 10) input)))
         ∧ (∀ i b, batches !! i = Some b → (S i < length batches)%nat →
              length b = 10%nat)
         ∧ Forall (λ b, (1 ≤ length b ≤ 10)%nat) batches
         ∧ concat batches = input)
  ∧ (temp_files_writable → can_ensure_dir out (world s) →
     ∃ r s', batch_edit_photos pp input out e1 e2 e3 s = Some (r, s')).
Proof.
  split; [|apply batch_edit_photos_returns].
  intros [c t] s' Hrun.
  apply batch_edit_photos_inv in Hrun as (new & Hhist & Hfiles & _ & _).
  exists new. split; [exact Hhist|].
  cbn zeta. rewrite Hfiles.
  assert (length (chunks 10 input) = ((length input + 9) / 10)%nat) as Hlen.
  { unfold chunks. rewrite length_map, length_seq. unfold chunk_count.
    f_equal. lia. }
  split_and!.
  - exact Hlen.
  - rewrite Hlen. pose proof (Nat.div_mod_eq (length input + 9) 10).
    pose proof (Nat.mod_upper_bound (length input + 9) 10 ltac:(lia)). lia.
  - rewrite Hlen. pose proof (Nat.div_mod_eq (length input + 9) 10).
    pose proof (Nat.mod_upper_bound (length input + 9) 10 ltac:(lia)). lia.
  - intros i Hi. by apply chunks_lookup.
  - intros i b Hb Hi. eapply chunks_full_before_last; [|exact Hb|exact Hi]. lia.
  - apply chunks_sizes. lia.
  - apply chunks_concat. lia.
Qed.

End ExternalTheorems.

Lemma demo_temp_files_writable : temp_files_writable (W := demo_world).
Proof. intros d jsx w. by eexists. Defined.

Lemma C3_batch_partition_witness :
  temp_files_writable (W := demo_world)
  ∧ can_ensure_dir "out" (world (Io idle_world []))
  ∧ ∃ r s' new,
      batch_edit_photos "photoshop" eight_files "out" true true true
        (Io idle_world []) = Some (r, s')
      ∧ history s' = [] ++ new
      ∧ length (map input_files_of new) = ((length eight_files + 9) / 10)%nat
      ∧ concat (map input_files_of new) = eight_files.
Proof.
  assert (can_ensure_dir "out" (world (Io idle_world []))) as Hdir
    by (left; vm_compute; reflexivity).
  split; [exact demo_temp_files_writable|]. split; [exact Hdir|].
  destruct (C3_batch_partition "photoshop" eight_files "out" true true true
              (Io idle_world [])) as [Hinv Hret].
  destruct (Hret demo_temp_files_writable Hdir) as (r & s' & Hrun).
  destruct (Hinv r s' Hrun) as (new & Hhist & Hlen & _ & _ & _ & _ & Hcat).
  exists r, s', new.
  split; [exact Hrun|]. split; [exact Hhist|]. split; [exact Hlen|exact Hcat].
Defined.



(** ** File discovery *)

Lemma elem_of_sorted x xs : x ∈ sorted xs ↔ x ∈ xs.
Proof. by rewrite sorted_perm. Qed.

Lemma elem_of_flat_map {A B} (f : A → list B) (l : list A) (y : B) :
  y ∈ flat_map f l ↔ ∃ x, x ∈ l ∧ y ∈ f x.
Proof.
  rewrite list_elem_of_In, in_flat_map. split.
  - intros (x & ?%list_elem_of_In & ?%list_elem_of_In). eauto.
  - intros (x & ?%list_elem_of_In & ?%list_elem_of_In). eauto.
Qed.

Lemma elem_of_map {A B} (f : A → B) (l : list A) (y : B) :
  y ∈ map f l ↔ ∃ x, y = f x ∧ x ∈ l.
Proof. apply (list_elem_of_fmap f). Qed.

Lemma supported_formats_names :
  SUPPORTED_IMAGE_FORMATS = map (λ e, "." +:+ e) extension_names.
Proof. reflexivity. Qed.

Lemma supported_lower ext :
  ext ∈ SUPPORTED_IMAGE_FORMATS → lower ext = ext ∧ lower (upper ext) = ext.
Proof.
  revert ext. apply Forall_forall. unfold SUPPORTED_IMAGE_FORMATS.
  repeat constructor.
Qed.

(** The patterns are a star followed by a supported extension in lower or
    in upper case; case folding turns either into the lower-case one. *)
Lemma glob_patterns_shape pat :
  pat ∈ glob_patterns →
  cut_last "/" pat = None ∧ startswith pat "/" = false
  ∧ startswith pat "." = false
  ∧ ∃ x, pat = String "*" x ∧ no_star x = true
         ∧ ∃ ext, ext ∈ SUPPORTED_IMAGE_FORMATS ∧ lower x = ext
                  ∧ str_map nt_fold x = ext ∧ no_star ext = true
                  ∧ Forall (λ c, c ≠ backslash) (String.list_ascii_of_string ext).
Proof.
  revert pat. apply Forall_forall.
  unfold glob_patterns, SUPPORTED_IMAGE_FORMATS. cbn [flat_map app].
  repeat (constructor;
          [split; [reflexivity|]; split; [reflexivity|]; split; [reflexivity|];
           eexists; split; [reflexivity|]; split; [reflexivity|];
           eexists; split;
             [|split; [reflexivity|]; split; [reflexivity|];
               split; [reflexivity|]; repeat (constructor; [discriminate|]);
               constructor];
           vm_compute;
           repeat first [apply list_elem_of_here|apply list_elem_of_further]|]).
  constructor.
Qed.

Lemma fnmatch_literal x :
  no_star x = true → ∀ name, fnmatch x name = String.eqb name x.
Proof.
  induction x as [|c x IH]; intros Hx name; [done|].
  cbn [no_star] in Hx. apply andb_true_iff in Hx as [Hc Hx].
  apply negb_true_iff in Hc. cbn [fnmatch]. rewrite Hc.
  destruct name as [|a name]; [done|].
  rewrite IH by done. reflexivity.
Qed.

Lemma fnmatch_star x :
  no_star x = true → ∀ name, fnmatch (String "*" x) name = endswith name x.
Proof.
  intros Hx name. cbn [fnmatch]. change (Ascii.eqb "*" "*") with true.
  cbv iota. induction name as [|a name IH].
  - rewrite endswith_nil. rewrite fnmatch_literal by done.
    by rewrite orb_false_r.
  - rewrite endswith_cons, <- IH. by rewrite fnmatch_literal by done.
Qed.

Lemma cut_last_app_sep c x t :
  cut_last c t = None → cut_last c (x +:+ String c t) = Some (x, t).
Proof.
  intros Ht. induction x as [|a x IH].
  - rewrite app_nil_str. cbn [cut_last]. rewrite Ht.
    by rewrite (proj2 (Ascii.eqb_eq c c)).
  - rewrite app_cons_str. cbn [cut_last]. by rewrite IH.
Qed.

Lemma join_relative d t :
  startswith t "/" = false → join d t = join_prefix d +:+ t.
Proof.
  intros Ht. unfold join, join_prefix. rewrite Ht.
  destruct (_ || _); [done|]. by rewrite app_assoc_str.
Qed.

(** The directory prefix is empty or ends with a slash. *)
Lemma join_prefix_shape d :
  join_prefix d = EmptyString ∨ ∃ x, join_prefix d = x +:+ "/".
Proof.
  unfold join_prefix.
  destruct (String.eqb d EmptyString) eqn:Hd; cbn [orb].
  - left. by apply eqb_true_eq.
  - destruct (endswith d "/") eqn:He.
    + right. by apply endswith_iff.
    + right. by exists d.
Qed.

Lemma split_join_prefix d t :
  cut_last "/" t = None → startswith t "/" = false →
  split (join d t)
  = (if String.eqb (rstrip_sep (join_prefix d)) EmptyString
     then join_prefix d else rstrip_sep (join_prefix d), t).
Proof.
  intros Hcut Hrel. rewrite join_relative by done. unfold split.
  destruct (join_prefix_shape d) as [->|[x ->]].
  - rewrite app_nil_str, Hcut. done.
  - rewrite app_assoc_str.
    change ("/" +:+ t) with (String "/" t).
    rewrite cut_last_app_sep by done. done.
Qed.

(** Splitting a joined relative pattern gives back the pattern, behind a
    directory part that depends on the directory only. *)
Lemma split_join d t :
  cut_last "/" t = None → startswith t "/" = false →
  split (join d t) = (glob_dirname d, t).
Proof.
  intros Hcut Hrel. unfold glob_dirname.
  rewrite (split_join_prefix d "*") by done. by rewrite split_join_prefix.
Qed.

Lemma has_magic_app s t : has_magic (s +:+ t) = has_magic s || has_magic t.
Proof.
  induction s as [|a s IH]; [by rewrite app_nil_str|].
  rewrite app_cons_str. cbn [has_magic]. rewrite IH. by rewrite !orb_assoc.
Qed.

Lemma has_magic_rstrip s : has_magic s = false → has_magic (rstrip_sep s) = false.
Proof.
  induction s as [|a s IH]; [done|]. cbn [has_magic rstrip_sep].
  intros [Ha Hs]%orb_false_iff.
  destruct (_ && _); [done|]. cbn [has_magic]. rewrite Ha. by apply IH.
Qed.

(** A directory without metacharacters gives a directory part without. *)
Lemma has_magic_glob_dirname d :
  has_magic d = false → has_magic (glob_dirname d) = false.
Proof.
  intros Hd. unfold glob_dirname. rewrite split_join_prefix by done.
  cbn [fst].
  assert (has_magic (join_prefix d) = false) as Hp.
  { unfold join_prefix. destruct (_ || _); [done|].
    rewrite has_magic_app, Hd. done. }
  destruct (String.eqb _ _); [done|]. by apply has_magic_rstrip.
Qed.

Lemma str_map_app_inv f s u v :
  str_map f s = u +:+ v →
  ∃ s1 s2, s = s1 +:+ s2 ∧ str_map f s1 = u ∧ str_map f s2 = v.
Proof.
  revert s. induction u as [|a u IH]; intros s Hs.
  - exists EmptyString, s. by rewrite !app_nil_str in *.
  - rewrite app_cons_str in Hs. destruct s as [|b s]; [done|].
    cbn [str_map] in Hs. injection Hs as Hb Hs.
    destruct (IH s Hs) as (s1 & s2 & -> & H1 & H2).
    exists (String b s1), s2. rewrite app_cons_str. cbn [str_map].
    by rewrite Hb, H1.
Qed.

Lemma fold_to_lower s v :
  str_map nt_fold s = v →
  Forall (λ c, c ≠ backslash) (String.list_ascii_of_string v) →
  lower s = v.
Proof.
  revert v. induction s as [|a s IH]; intros v Hs Hv; [done|].
  cbn [str_map] in Hs. subst v. cbn [String.list_ascii_of_string] in Hv.
  apply Forall_cons in Hv as [Ha Hv].
  unfold lower. cbn [str_map]. f_equal; [|by apply IH].
  unfold nt_fold in Ha |- *. by destruct (Ascii.eqb a "/").
Qed.

Lemma endswith_fold name ext :
  Forall (λ c, c ≠ backslash) (String.list_ascii_of_string ext) →
  endswith (str_map nt_fold name) ext = true →
  endswith (lower name) ext = true.
Proof.
  intros Hext [u Hu]%endswith_iff.
  apply str_map_app_inv in Hu as (s1 & s2 & -> & _ & H2).
  apply endswith_iff. exists (lower s1).
  unfold lower at 1. rewrite str_map_app. f_equal. by apply fold_to_lower.
Qed.

Lemma elem_of_glob_patterns ext :
  ext ∈ SUPPORTED_IMAGE_FORMATS →
  "*" +:+ ext ∈ glob_patterns ∧ "*" +:+ upper ext ∈ glob_patterns.
Proof.
  intros Hext. unfold glob_patterns.
  split; apply elem_of_flat_map; exists ext; (split; [done|]).
  - apply list_elem_of_here.
  - apply list_elem_of_further, list_elem_of_here.
Qed.

Lemma matches_supported name :
  existsb (λ ext, endswith (lower name) ext) SUPPORTED_IMAGE_FORMATS = true →
  ∃ ext, ext ∈ SUPPORTED_IMAGE_FORMATS ∧ endswith (lower name) ext = true.
Proof.
  intros (ext & Hin & He)%existsb_exists. exists ext.
  split; [by apply list_elem_of_In|done].
Qed.

Lemma joined_keeps_extension d name ext :
  endswith (lower name) ext = true → endswith (lower (join d name)) ext = true.
Proof.
  intros He. destruct (join_ends d name) as [u ->].
  unfold lower. rewrite str_map_app. by apply endswith_app.
Qed.

Lemma node_induction (P : node → Prop) :
  P File →
  (∀ es, Forall (λ e, P e.2) es → P (Dir es)) →
  ∀ n, P n.
Proof.
  intros HF HD. fix IH 1. intros [|es]; [exact HF|].
  apply HD. induction es as [|e es IHes]; constructor; [apply IH|exact IHes].
Qed.

(** An observation has the same contents as itself: a plain re-run is
    covered. *)
Lemma same_contents_refl t : same_contents t t.
Proof.
  induction t as [|es IH] using node_induction; [constructor|].
  apply (same_dir es es es); [|done].
  induction IH as [|e es He _ IHes]; constructor; [by split|exact IHes].
Qed.

Lemma flat_map_pointwise_perm {A B} (f g : A → list B) (l : list A) :
  Forall (λ x, f x ≡ₚ g x) l → flat_map f l ≡ₚ flat_map g l.
Proof.
  induction 1 as [|x l Hx _ IH]; [done|]. cbn [flat_map]. by rewrite Hx, IH.
Qed.

Lemma flat_map_flat_map {A B C} (f : B → list C) (g : A → list B) (l : list A) :
  flat_map f (flat_map g l) = flat_map (λ x, flat_map f (g x)) l.
Proof.
  induction l as [|x l IH]; [done|]. cbn [flat_map].
  by rewrite flat_map_app, IH.
Qed.

Lemma same_contents_is_dir t t' : same_contents t t' → is_dir t = is_dir t'.
Proof. by destruct 1. Qed.

Lemma same_entries_names (keep : bool) es mid :
  Forall2 (λ e e' : string * node, e.1 = e'.1 ∧ same_contents e.2 e'.2) es mid →
  (filter (λ e : string * node, is_dir e.2 = keep) es).*1
  = (filter (λ e : string * node, is_dir e.2 = keep) mid).*1.
Proof.
  induction 1 as [|e e' es mid [Hname Hsame] _ IH]; [done|].
  rewrite !filter_cons. rewrite <- (same_contents_is_dir _ _ Hsame).
  case_decide; [|done]. cbn [fmap list_fmap]. by rewrite Hname, IH.
Qed.

Lemma walk_matches_Dir top es :
  walk_matches top (Dir es)
  = map (join top)
        (filter (λ file,
             existsb (λ ext, endswith (lower file) ext)
                     SUPPORTED_IMAGE_FORMATS = true)
           (filter (λ e : string * node, is_dir e.2 = false) es).*1)
    ++ flat_map (λ e, walk_matches (join top e.1) e.2) es.
Proof.
  unfold walk_matches at 1. cbn [walk flat_map]. f_equal.
  apply flat_map_flat_map.
Qed.

Lemma same_contents_walk t :
  ∀ t' top, same_contents t t' → walk_matches top t ≡ₚ walk_matches top t'.
Proof.
  induction t as [|es IH] using node_induction; intros t' top Hsame.
  { by inversion Hsame. }
  inversion Hsame as [|es0 mid es' Hmid Hperm]; subst.
  rewrite !walk_matches_Dir.
  rewrite (same_entries_names false es mid Hmid).
  assert (flat_map (λ e, walk_matches (join top e.1) e.2) es
          ≡ₚ flat_map (λ e, walk_matches (join top e.1) e.2) mid) as ->.
  { clear Hperm Hsame. induction Hmid as [|e e' es mid [Hname He] _ IHmid];
      [done|].
    apply Forall_cons in IH as [IHe IHes]. cbn [flat_map].
    rewrite (IHe _ (join top e.1) He), Hname. by rewrite IHmid. }
  apply Permutation_app.
  - apply Permutation_map. by rewrite Hperm.
  - by apply Permutation_flat_map.
Qed.

Lemma same_contents_listdir t t' : same_contents t t' → listdir t ≡ₚ listdir t'.
Proof.
  destruct 1 as [|es mid es' Hmid Hperm]; [done|].
  unfold listdir. cbn [entries_of]. rewrite <- Hperm.
  clear Hperm. induction Hmid as [|e e' es mid [Hname _] _ IH]; [done|].
  cbn [fmap list_fmap]. by rewrite Hname, IH.
Qed.

Section DiscoveryProps.
Context {env : GlobEnv}.

(** What one listing contributes to a [glob.glob] call of the
    non-recursive branch: names of that listing that are not hidden and
    end, case aside, with a supported extension. *)
Lemma elem_of_glob1 n pat name :
  pat ∈ glob_patterns →
  name ∈ glob1 n pat →
  name ∈ listdir n ∧ startswith name "." = false
  ∧ ∃ ext, ext ∈ SUPPORTED_IMAGE_FORMATS ∧ endswith (lower name) ext = true.
Proof.
  intros Hpat Hname.
  destruct (glob_patterns_shape pat Hpat)
    as (_ & _ & Hdot & x & -> & Hx & ext & Hext & Hlow & Hfold & Hstar & Hbs).
  unfold glob1 in Hname. rewrite Hdot in Hname.
  unfold fnmatch_filter in Hname.
  apply list_elem_of_filter in Hname as [Hm Hname].
  apply list_elem_of_filter in Hname as [Hh Hname].
  split; [done|]. split; [done|]. exists ext. split; [done|].
  unfold normcase in Hm. destruct fnmatch_folds_case.
  - cbn [str_map] in Hm. change (nt_fold "*") with "*"%char in Hm.
    rewrite Hfold, fnmatch_star in Hm by done. by apply endswith_fold.
  - rewrite fnmatch_star in Hm by done.
    rewrite <- Hlow. by apply endswith_lower.
Qed.

Lemma elem_of_glob root d pat p :
  pat ∈ glob_patterns →
  p ∈ glob root (join d pat) →
  ∃ dir n name ext,
    p = join dir name ∧ name ∈ listdir n
    ∧ ext ∈ SUPPORTED_IMAGE_FORMATS ∧ endswith (lower name) ext = true
    ∧ (has_magic (glob_dirname d) = false → dir = glob_dirname d ∧ n = root).
Proof.
  intros Hpat Hp.
  destruct (glob_patterns_shape pat Hpat) as (Hcut & Hrel & _).
  unfold glob in Hp. rewrite split_join in Hp by done.
  apply elem_of_flat_map in Hp as ([dir n] & Hdir & Hp).
  apply elem_of_map in Hp as (name & -> & Hname). cbn [fst snd] in *.
  destruct (elem_of_glob1 n pat name Hpat Hname) as (Hin & _ & ext & Hext & He).
  exists dir, n, name, ext. split_and!; try done.
  intros Hplain. rewrite Hplain, andb_false_r in Hdir.
  by apply list_elem_of_singleton in Hdir as [= -> ->].
Qed.

Lemma flat_discovery_inv root directory p :
  p ∈ get_image_files root directory false →
  ∃ dir n name ext,
    p = join dir name ∧ name ∈ listdir n
    ∧ ext ∈ SUPPORTED_IMAGE_FORMATS ∧ endswith (lower name) ext = true
    ∧ (has_magic (glob_dirname directory) = false →
       dir = glob_dirname directory ∧ n = root).
Proof.
  intros Hp. unfold get_image_files in Hp.
  apply elem_of_sorted, elem_of_flat_map in Hp as (ext & Hext & Hp).
  destruct (elem_of_glob_patterns ext Hext) as [Hlo Hup].
  apply elem_of_app in Hp as [Hp|Hp].
  - exact (elem_of_glob root directory _ p Hlo Hp).
  - exact (elem_of_glob root directory _ p Hup Hp).
Qed.

(** X18.  The result of [get_image_files] is sorted; every path in it
    ends, once lower-cased, with a dot and one of the extension names jpg,
    jpeg, tif, tiff, raw, cr2, nef, arw; and without [recursive], for a
    directory path that holds no glob metacharacter, every path is an
    entry of the directory joined to the directory's path. *)
Theorem discovery_sound (root : node) (directory : string) (recursive : bool) :
  Sorted String.le (get_image_files root directory recursive)
  ∧ (∀ p, p ∈ get_image_files root directory recursive →
       ∃ e, e ∈ extension_names ∧ endswith (lower p) ("." +:+ e) = true)
  ∧ (has_magic directory = false →
     ∀ p, p ∈ get_image_files root directory false →
       ∃ name, name ∈ listdir root ∧ p = join (glob_dirname directory) name).
Proof.
  split_and!.
  - apply sorted_Sorted.
  - intros p Hp.
    assert (∃ ext, ext ∈ SUPPORTED_IMAGE_FORMATS
                   ∧ endswith (lower p) ext = true) as (ext & Hext & He).
    { destruct recursive.
      - unfold get_image_files in Hp.
        apply elem_of_sorted, elem_of_flat_map in Hp as ([[r ds] fs] & _ & Hp).
        apply elem_of_map in Hp as (name & -> & Hname).
        apply list_elem_of_filter in Hname as [Hm _].
        destruct (matches_supported name Hm) as (ext & Hext & He).
        exists ext. split; [done|]. by apply joined_keeps_extension.
      - destruct (flat_discovery_inv root directory p Hp)
          as (dir & n & name & ext & -> & _ & Hext & He & _).
        exists ext. split; [done|]. by apply joined_keeps_extension. }
    rewrite supported_formats_names in Hext.
    apply elem_of_map in Hext as (e & -> & He'). by exists e.
  - intros Hplain p Hp.
    destruct (flat_discovery_inv root directory p Hp)
      as (dir & n & name & ext & -> & Hname & _ & _ & Hdir).
    destruct (Hdir (has_magic_glob_dirname _ Hplain)) as [-> ->].
    by exists name.
Qed.

(** ** Enumeration order *)

(** C8.  Two runs over the same directory contents with the same
    [recursive] flag return the same sequence, in whatever order the
    operating system enumerates the entries on each run. *)
Theorem C8_discovery_deterministic (root root' : node) (directory : string)
    (recursive : bool) :
  same_contents root root' →
  get_image_files root directory recursive
  = get_image_files root' directory recursive.
Proof.
  intros Hsame. unfold get_image_files. apply sorted_perm_eq.
  destruct recursive.
  - unfold os_walk. destruct (String.eqb directory EmptyString); [done|].
    by apply (same_contents_walk root root' directory).
  - apply flat_map_pointwise_perm, Forall_forall. intros ext _.
    pose proof (same_contents_listdir _ _ Hsame) as Hls.
    assert (∀ pathname, glob root pathname ≡ₚ glob root' pathname) as Hglob.
    { intros pathname. unfold glob. destruct (split pathname) as [dirname pat].
      destruct (_ && _); [done|]. cbn [flat_map fst snd]. rewrite !app_nil_r.
      apply Permutation_map. unfold glob1, fnmatch_filter.
      destruct (startswith pat "."); by rewrite Hls. }
    apply Permutation_app; apply Hglob.
Qed.
End DiscoveryProps.

(** C4.  The search without [recursive] hands the directory path to
    [glob.glob] as part of the pattern.  For the directory a[b], which
    holds x.jpg and y.JPG and stands next to a directory ab holding
    other.jpg, it returns ab/other.jpg: a file of another directory, and
    none of the files of the directory it was asked to search.  The search
    with [recursive] takes the same path as it stands. *)
Theorem C4_discovery_escapes_directory :
  listdir bracket_dir = ["x.jpg"; "y.JPG"]
  ∧ get_image_files (env := bracket_env) bracket_dir "a[b]" false
    = ["ab/other.jpg"]
  ∧ (∀ name, name ∈ listdir bracket_dir →
       join (glob_dirname "a[b]") name
       ∉ get_image_files (env := bracket_env) bracket_dir "a[b]" false)
  ∧ (∀ name, name ∈ listdir bracket_dir →
       "ab/other.jpg" ≠ join (glob_dirname "a[b]") name)
  ∧ get_image_files (env := bracket_env) bracket_dir "a[b]" true
    = ["a[b]/x.jpg"; "a[b]/y.JPG"].
Proof.
  assert (get_image_files (env := bracket_env) bracket_dir "a[b]" false
          = ["ab/other.jpg"]) as Hflat by (vm_compute; reflexivity).
  split; [reflexivity|]. split; [exact Hflat|]. rewrite Hflat.
  assert (Forall (λ name, "ab/other.jpg" ≠ join (glob_dirname "a[b]") name)
            (listdir bracket_dir)) as Hne
    by (repeat (constructor; [vm_compute; discriminate|]); constructor).
  rewrite Forall_forall in Hne.
  split_and!.
  - intros name Hname Hin. apply list_elem_of_singleton in Hin.
    by apply (Hne name Hname).
  - exact Hne.
  - vm_compute. reflexivity.
Qed.

Lemma shoot_dir_same : same_contents shoot_dir shoot_dir_again.
Proof.
  unfold shoot_dir, shoot_dir_again.
  eapply same_dir; [|apply perm_swap].
  repeat (constructor; [split; [reflexivity|]; try apply same_file|]);
    [|constructor].
  eapply same_dir; [|apply perm_swap].
  repeat (constructor; [split; [reflexivity|apply same_file]|]).
  constructor.
Defined.

Lemma C8_discovery_deterministic_witness :
  same_contents shoot_dir shoot_dir_again
  ∧ get_image_files (env := posix_env) shoot_dir "shoot" true
    = get_image_files (env := posix_env) shoot_dir_again "shoot" true.
Proof.
  split; [exact shoot_dir_same|].
  exact (C8_discovery_deterministic (env := posix_env) shoot_dir
           shoot_dir_again "shoot" true shoot_dir_same).
Defined.

(** What the two branches find in the sample directory. *)
Example discovery_flat :
  get_image_files (env := posix_env) shoot_dir "shoot" false
  = ["shoot/IMG_001.jpg"; "shoot/IMG_002.JPG"].
Proof. vm_compute. reflexivity. Qed.

Example discovery_recursive :
  get_image_files (env := posix_env) shoot_dir "shoot/" true
  = ["shoot/.hidden.jpg"; "shoot/IMG_001.jpg"; "shoot/IMG_002.JPG";
     "shoot/IMG_003.Jpg"; "shoot/raw/IMG_001.CR2"; "shoot/raw/IMG_002.cr2"].
Proof. vm_compute. reflexivity. Qed.

(** Where [fnmatch] folds case, every name that matches does so for the
    lower-case and for the upper-case pattern, and is returned twice; an
    extension in mixed case is found too.  (Searched from the current
    directory, so that no path is spelled with a separator.) *)
Example discovery_flat_folding :
  get_image_files (env := windows_env) shoot_dir EmptyString false
  = ["IMG_001.jpg"; "IMG_001.jpg"; "IMG_002.JPG"; "IMG_002.JPG";
     "IMG_003.Jpg"; "IMG_003.Jpg"].
Proof. vm_compute. reflexivity. Qed.

Example glob_dirname_plain : glob_dirname "shoot" = "shoot".
Proof. reflexivity. Qed.

Example glob_dirname_trailing : glob_dirname "shoot//" = "shoot".
Proof. reflexivity. Qed.

Example glob_dirname_root : glob_dirname "/" = "/".
Proof. reflexivity. Qed.

(** The batches of the specification's example: 25 files go out as
    10, 10 and 5. *)
Example batches_25 :
  map length (chunks 10 (replicate 25 "IMG.jpg")) = [10; 10; 5]%nat.
Proof. reflexivity. Qed.

(** Six files with a bracket count of three: two sets, both kept. *)
Example six_files_two_sets :
  bracketed_sets_of
    [PyStrs ["IMG_003.jpg"; "IMG_001.jpg"; "IMG_002.jpg";
             "IMG_006.jpg"; "IMG_005.jpg"; "IMG_004.jpg"]] 0%nat 3
  = Some [["IMG_001.jpg"; "IMG_002.jpg"; "IMG_003.jpg"];
          ["IMG_004.jpg"; "IMG_005.jpg"; "IMG_006.jpg"]].
Proof. vm_compute. reflexivity. Qed.

(** * Further properties of the code *)

(** ** [identify_bracketed_sets] *)

(** X1.  The sets returned depend on which files the caller's list holds,
    not on the order it holds them in. *)
Theorem identify_order_independent (h1 h2 : heap) (l1 l2 : loc)
    (files1 files2 : list string) (B : Z) :
  h1 !! l1 = Some (PyStrs files1) →
  h2 !! l2 = Some (PyStrs files2) →
  files1 ≡ₚ files2 →
  ∃ gs, bracketed_sets_of h1 l1 B = Some gs
        ∧ bracketed_sets_of h2 l2 B = Some gs.
Proof.
  intros H1 H2 Hp.
  rewrite (bracketed_sets_of_grouping h1 l1 files1) by done.
  rewrite (bracketed_sets_of_grouping h2 l2 files2) by done.
  assert (length files1 = length files2) as -> by (by rewrite Hp).
  rewrite (sorted_perm_eq files1 files2 Hp). by eexists.
Qed.

Lemma identify_order_independent_witness :
  [PyStrs seven_files] !! 0%nat = Some (PyStrs seven_files)
  ∧ [PyStrs []; PyStrs (reverse seven_files)] !! 1%nat
    = Some (PyStrs (reverse seven_files))
  ∧ seven_files ≡ₚ reverse seven_files
  ∧ ∃ gs, bracketed_sets_of [PyStrs seven_files] 0%nat 3 = Some gs
          ∧ bracketed_sets_of [PyStrs []; PyStrs (reverse seven_files)]
              1%nat 3 = Some gs.
Proof.
  assert (seven_files ≡ₚ reverse seven_files) as Hp
    by (symmetry; apply reverse_Permutation).
  split; [reflexivity|]. split; [reflexivity|]. split; [exact Hp|].
  exact (identify_order_independent [PyStrs seven_files]
           [PyStrs []; PyStrs (reverse seven_files)] 0%nat 1%nat
           seven_files (reverse seven_files) 3 eq_refl eq_refl Hp).
Defined.

(** X2.  On a list that is already sorted, as [get_image_files] returns
    it, the call changes no object the caller had: the in-place sort
    rewrites the list with the same contents. *)
Theorem identify_keeps_sorted_input (h : heap) (l : loc)
    (files : list string) (B : Z) :
  h !! l = Some (PyStrs files) →
  Sorted String.le files →
  ∃ (h' : heap) (r : loc),
    identify_bracketed_sets l B h = Some (r, h')
    ∧ ∀ a, (a < length h)%nat → h' !! a = h !! a.
Proof.
  intros Hl Hs.
  destruct (identify_bracketed_sets_run h l files B Hl)
    as (h' & rs & Hrun & Hl' & _ & _ & _ & Hfr).
  exists h', (length h). split; [exact Hrun|].
  intros a Ha. destruct (decide (a = l)) as [->|Hne]; [|by apply Hfr].
  rewrite Hl', Hl. do 2 f_equal. symmetry. by apply sorted_unique.
Qed.

Lemma identify_keeps_sorted_input_witness :
  [PyStrs (get_image_files (env := posix_env) shoot_dir "shoot" true)]
    !! 0%nat
  = Some (PyStrs (get_image_files (env := posix_env) shoot_dir "shoot" true))
  ∧ Sorted String.le
      (get_image_files (env := posix_env) shoot_dir "shoot" true)
  ∧ ∃ (h' : heap) (r : loc),
      identify_bracketed_sets 0%nat 3
        [PyStrs (get_image_files (env := posix_env) shoot_dir "shoot" true)]
      = Some (r, h')
      ∧ ∀ a,
          (a < length
                 [PyStrs
                    (get_image_files (env := posix_env) shoot_dir "shoot" true)])%nat →
          h' !! a
          = [PyStrs (get_image_files (env := posix_env) shoot_dir "shoot" true)]
              !! a.
Proof.
  split; [reflexivity|].
  split; [apply sorted_Sorted|].
  exact (identify_keeps_sorted_input
           [PyStrs (get_image_files (env := posix_env) shoot_dir "shoot" true)]
           0%nat (get_image_files (env := posix_env) shoot_dir "shoot" true) 3
           eq_refl (sorted_Sorted _)).
Defined.

Lemma sets_at_unique (h : heap) rs gs gs' :
  sets_at h rs gs → sets_at h rs gs' → gs = gs'.
Proof.
  intros H. revert gs'. induction H as [|r g rs gs Hr _ IH]; intros gs' H'.
  - by inversion H'.
  - inversion H' as [|? g' ? gs'' Hr' H'']; subst.
    f_equal; [congruence|by apply IH].
Qed.

(** X3.  Calling the function again on the same list returns the same
    sets in new objects, and leaves the sets of the first call as they
    were. *)
Theorem identify_twice (h : heap) (l : loc) (files : list string) (B : Z) :
  h !! l = Some (PyStrs files) →
  ∃ (h1 h2 : heap) (r1 r2 : loc) gs,
    identify_bracketed_sets l B h = Some (r1, h1)
    ∧ identify_bracketed_sets l B h1 = Some (r2, h2)
    ∧ r1 ≠ r2
    ∧ read_sets h1 r1 = Some gs
    ∧ read_sets h2 r2 = Some gs
    ∧ read_sets h2 r1 = Some gs.
Proof.
  intros Hl.
  destruct (identify_bracketed_sets_run h l files B Hl)
    as (h1 & rs1 & Hrun1 & Hl1 & Hr1 & Hfresh1 & Hsets1 & _).
  destruct (identify_bracketed_sets_run h1 l (sorted files) B Hl1)
    as (h2 & rs2 & Hrun2 & _ & Hr2 & _ & Hsets2 & Hfr2).
  pose proof (lookup_lt_Some _ _ _ Hl) as Hlt.
  pose proof (lookup_lt_Some _ _ _ Hr1) as Hr1lt.
  assert (sorted (sorted files) = sorted files) as Hidem
    by (apply sorted_perm_eq, sorted_perm).
  rewrite Hidem, sorted_length in Hsets2.
  exists h1, h2, (length h), (length h1),
    (grouping B (length files) 0 (sorted files) [] []).
  split_and!; try done.
  - lia.
  - by eapply sets_at_read.
  - by eapply sets_at_read.
  - eapply sets_at_read.
    + rewrite Hfr2 by lia. exact Hr1.
    + eapply sets_at_frame; [exact Hsets1|].
      pose proof (sets_at_lt _ _ _ Hsets1) as Hlt1.
      apply Forall_forall. intros r Hr.
      rewrite Forall_forall in Hfresh1, Hlt1.
      specialize (Hfresh1 r Hr). specialize (Hlt1 r Hr).
      apply Hfr2; lia.
Qed.

Lemma identify_twice_witness :
  [PyStrs eight_files] !! 0%nat = Some (PyStrs eight_files)
  ∧ ∃ (h1 h2 : heap) (r1 r2 : loc) gs,
      identify_bracketed_sets 0%nat 3 [PyStrs eight_files] = Some (r1, h1)
      ∧ identify_bracketed_sets 0%nat 3 h1 = Some (r2, h2)
      ∧ r1 ≠ r2
      ∧ read_sets h1 r1 = Some gs
      ∧ read_sets h2 r2 = Some gs
      ∧ read_sets h2 r1 = Some gs.
Proof.
  split; [reflexivity|].
  exact (identify_twice [PyStrs eight_files] 0%nat eight_files 3 eq_refl).
Defined.

(** Every set returned has a first file. *)
Lemma bracketed_sets_nonempty (h : heap) l files B gs :
  h !! l = Some (PyStrs files) →
  bracketed_sets_of h l B = Some gs →
  Forall (λ g, g ≠ []) gs.
Proof.
  intros Hl Hgs.
  assert (∃ cs, gs = retained cs) as [cs ->].
  { destruct (decide (1 ≤ B)).
    - rewrite (bracketed_sets_of_pos h l files) in Hgs by done.
      injection Hgs as <-. by eexists.
    - rewrite (bracketed_sets_of_nonpos h l files) in Hgs by (done || lia).
      injection Hgs as <-. by eexists. }
  eapply Forall_impl; [apply retained_sizes|].
  intros g Hg ->. simpl in Hg. lia.
Qed.

(** ** The batch and HDR loops *)

Section LoopProperties.
Context {W : Type} `{!OS W}.

(** X4.  [merge_hdr_photos] raises when one of the sets is empty (at the
    latest with the [IndexError] of [bracketed_set[0]]).  Whenever it
    returns, no set was empty, the total is the number of sets and the
    success count lies between zero and that total.  It returns whenever
    no set is empty, the output directory exists or can be created, and
    the temporary files can be written. *)
Theorem merge_hdr_photos_outcome pp sets out rg (s : io W) :
  (Exists (λ g, g = []) sets → merge_hdr_photos pp sets out rg s = None)
  ∧ (∀ c t s',
       merge_hdr_photos pp sets out rg s = Some ((c, t), s') →
       Forall (λ g, g ≠ []) sets
       ∧ t = Z.of_nat (length sets) ∧ 0 ≤ c ≤ t)
  ∧ (Forall (λ g, g ≠ []) sets →
     temp_files_writable → can_ensure_dir out (world s) →
     ∃ r s', merge_hdr_photos pp sets out rg s = Some (r, s')).
Proof.
  assert (∀ c t s',
            merge_hdr_photos pp sets out rg s = Some ((c, t), s') →
            Forall (λ g, g ≠ []) sets
            ∧ t = Z.of_nat (length sets) ∧ 0 ≤ c ≤ t) as Hinv.
  { intros c t s' Hrun.
    apply merge_hdr_photos_inv
      in Hrun as (Hne & new & _ & Hfiles & Ht & _ & Hc).
    split; [done|]. split; [done|].
    pose proof (length_filter (λ u, hdr_unit_ok u = true) new) as Hle.
    assert (length sets = length new) as Hlen
      by (by rewrite <- Hfiles, length_map).
    lia. }
  split_and!.
  - intros Hex. unfold merge_hdr_photos, bind.
    destruct (ensure_dir out s) as [[[] s0]|]; [|done].
    by rewrite hdr_loop_raises.
  - exact Hinv.
  - intros Hne Hw Hdir. by apply merge_hdr_photos_returns.
Qed.

(** X5.  Whenever [batch_edit_photos] returns, its total is the number of
    input files and its success count lies between zero and that total.
    It returns, for every input list, whenever the output directory exists
    or can be created and the temporary files can be written. *)
Theorem batch_edit_photos_counts pp input out e1 e2 e3 (s : io W) :
  (∀ c t s',
     batch_edit_photos pp input out e1 e2 e3 s = Some ((c, t), s') →
     t = Z.of_nat (length input) ∧ 0 ≤ c ≤ t)
  ∧ (temp_files_writable → can_ensure_dir out (world s) →
     ∃ r s', batch_edit_photos pp input out e1 e2 e3 s = Some (r, s')).
Proof.
  split; [|apply batch_edit_photos_returns].
  intros c t s' Hrun.
  apply batch_edit_photos_inv in Hrun as (new & _ & Hfiles & Ht & Hc).
  split; [done|].
  pose proof (batch_ok_files_le out new) as Hle.
  rewrite Hfiles, chunks_concat in Hle by lia. lia.
Qed.

(** X6.  Whatever [identify_bracketed_sets] returns can be handed to
    [merge_hdr_photos]: no set is empty, so [bracketed_set[0]] does not
    raise; when the output directory exists or can be created and the
    temporary files can be written, the merge returns, having invoked
    Photoshop once per set, in order, and its total is the number of
    sets. *)
Theorem identified_sets_merge (h : heap) (l : loc) (files : list string)
    (B : Z) gs pp out rg (s : io W) :
  h !! l = Some (PyStrs files) →
  bracketed_sets_of h l B = Some gs →
  Forall (λ g, g ≠ []) gs
  ∧ (temp_files_writable → can_ensure_dir out (world s) →
     ∃ c s' new,
       merge_hdr_photos pp gs out rg s = Some ((c, Z.of_nat (length gs)), s')
       ∧ history s' = history s ++ new
       ∧ map input_files_of new = gs
       ∧ 0 ≤ c ≤ Z.of_nat (length gs)).
Proof.
  intros Hl Hgs.
  pose proof (bracketed_sets_nonempty h l files B gs Hl Hgs) as Hne.
  split; [exact Hne|]. intros Hw Hdir.
  destruct (merge_hdr_photos_returns pp gs out rg s Hw Hdir Hne)
    as ([c t] & s' & Hrun).
  destruct (merge_hdr_photos_inv _ _ _ _ _ _ _ _ Hrun)
    as (_ & new & Hhist & Hfiles & -> & _ & Hc).
  exists c, s', new. split_and!; try done.
  - lia.
  - pose proof (length_filter (λ u, hdr_unit_ok u = true) new) as Hle.
    assert (length gs = length new) as ->
      by (by rewrite <- Hfiles, length_map).
    lia.
Qed.

End LoopProperties.

Lemma merge_hdr_photos_outcome_witness :
  Forall (λ g : list string, g ≠ []) [seven_files]
  ∧ temp_files_writable (W := demo_world)
  ∧ can_ensure_dir "out" (world (Io idle_world []))
  ∧ ∃ c t s',
      merge_hdr_photos "photoshop" [seven_files] "out" true (Io idle_world [])
      = Some ((c, t), s')
      ∧ t = Z.of_nat (length [seven_files]) ∧ 0 ≤ c ≤ t.
Proof.
  assert (Forall (λ g : list string, g ≠ []) [seven_files]) as Hne
    by (constructor; [discriminate|constructor]).
  assert (can_ensure_dir "out" (world (Io idle_world []))) as Hdir
    by (left; vm_compute; reflexivity).
  split; [exact Hne|]. split; [exact demo_temp_files_writable|].
  split; [exact Hdir|].
  destruct (merge_hdr_photos_outcome "photoshop" [seven_files] "out" true
              (Io idle_world [])) as (_ & Hinv & Hret).
  destruct (Hret Hne demo_temp_files_writable Hdir) as ([c t] & s' & Hrun).
  destruct (Hinv c t s' Hrun) as (_ & Ht & Hc).
  exists c, t, s'. split; [exact Hrun|]. split; [exact Ht|exact Hc].
Defined.

Lemma batch_edit_photos_counts_witness :
  temp_files_writable (W := demo_world)
  ∧ can_ensure_dir "fresh" (world (Io idle_world []))
  ∧ ∃ c t s',
      batch_edit_photos "photoshop" seven_files "fresh" true true true
        (Io idle_world []) = Some ((c, t), s')
      ∧ t = Z.of_nat (length seven_files) ∧ 0 ≤ c ≤ t.
Proof.
  assert (can_ensure_dir "fresh" (world (Io idle_world []))) as Hdir
    by (right; eexists; vm_compute; reflexivity).
  split; [exact demo_temp_files_writable|]. split; [exact Hdir|].
  destruct (batch_edit_photos_counts "photoshop" seven_files "fresh"
              true true true (Io idle_world [])) as (Hinv & Hret).
  destruct (Hret demo_temp_files_writable Hdir) as ([c t] & s' & Hrun).
  destruct (Hinv c t s' Hrun) as (Ht & Hc).
  exists c, t, s'. split; [exact Hrun|]. split; [exact Ht|exact Hc].
Defined.

Lemma identified_sets_merge_witness :
  [PyStrs eight_files] !! 0%nat = Some (PyStrs eight_files)
  ∧ bracketed_sets_of [PyStrs eight_files] 0%nat 3
    = Some [["IMG_001.jpg"; "IMG_002.jpg"; "IMG_003.jpg"];
            ["IMG_004.jpg"; "IMG_005.jpg"; "IMG_006.jpg"];
            ["IMG_007.jpg"; "IMG_008.jpg"]]
  ∧ temp_files_writable (W := demo_world)
  ∧ can_ensure_dir "out" (world (Io idle_world []))
  ∧ ∃ c s' new,
      merge_hdr_photos "photoshop"
        [["IMG_001.jpg"; "IMG_002.jpg"; "IMG_003.jpg"];
         ["IMG_004.jpg"; "IMG_005.jpg"; "IMG_006.jpg"];
         ["IMG_007.jpg"; "IMG_008.jpg"]] "out" true (Io idle_world [])
      = Some ((c, Z.of_nat (length
                 [["IMG_001.jpg"; "IMG_002.jpg"; "IMG_003.jpg"];
                  ["IMG_004.jpg"; "IMG_005.jpg"; "IMG_006.jpg"];
                  ["IMG_007.jpg"; "IMG_008.jpg"]])), s')
      ∧ history s' = history (Io idle_world []) ++ new
      ∧ map input_files_of new
        = [["IMG_001.jpg"; "IMG_002.jpg"; "IMG_003.jpg"];
           ["IMG_004.jpg"; "IMG_005.jpg"; "IMG_006.jpg"];
           ["IMG_007.jpg"; "IMG_008.jpg"]]
      ∧ 0 ≤ c ≤ Z.of_nat (length
                 [["IMG_001.jpg"; "IMG_002.jpg"; "IMG_003.jpg"];
                  ["IMG_004.jpg"; "IMG_005.jpg"; "IMG_006.jpg"];
                  ["IMG_007.jpg"; "IMG_008.jpg"]]).
Proof.
  assert (bracketed_sets_of [PyStrs eight_files] 0%nat 3
          = Some [["IMG_001.jpg"; "IMG_002.jpg"; "IMG_003.jpg"];
                  ["IMG_004.jpg"; "IMG_005.jpg"; "IMG_006.jpg"];
                  ["IMG_007.jpg"; "IMG_008.jpg"]]) as Hgs
    by (vm_compute; reflexivity).
  assert (can_ensure_dir "out" (world (Io idle_world []))) as Hdir
    by (left; vm_compute; reflexivity).
  split; [reflexivity|]. split; [exact Hgs|].
  split; [exact demo_temp_files_writable|]. split; [exact Hdir|].
  exact (proj2 (identified_sets_merge [PyStrs eight_files] 0%nat eight_files
                  3 _ "photoshop" "out" true (Io idle_world []) eq_refl Hgs)
           demo_temp_files_writable Hdir).
Defined.

(** ** [run_photoshop_script] *)

Section InvocationProperties.
Context {W : Type} `{!OS W}.

(** X7.  When the script file is missing the call returns [False] and
    touches nothing: no temporary file, no process.  A call that returns
    [True] found the script file and saw a process exit with code 0. *)
Theorem run_photoshop_script_result pp jsx params (w : W) hist :
  (os_path_isfile jsx w = false →
   run_photoshop_script pp jsx params (Io w hist)
   = Some (false, Io w (hist ++ [Invocation jsx params false w])))
  ∧ (∀ s', run_photoshop_script pp jsx params (Io w hist) = Some (true, s') →
       os_path_isfile jsx w = true
       ∧ ∃ cmd w1 w2, popen_communicate cmd w1 = (Some 0, w2)
                      ∧ world s' = unlink_temp_files w2).
Proof.
  split.
  - intros Hmissing. unfold run_photoshop_script.
    unfold bind at 1. unfold is_valid_file, observe, act. cbn [world history].
    rewrite Hmissing. cbn [negb].
    unfold bind, record_invocation, ret. cbn [world history]. done.
  - intros s'. unfold run_photoshop_script.
    unfold bind at 1. unfold is_valid_file, observe, act. cbn [world history].
    destruct (os_path_isfile jsx w); cbn [negb].
    + intros (script & s1 & Hstage & Hrun)%bind_inv.
      assert (∃ w1, s1 = Io w1 hist) as [w1 ->].
      { destruct params as [d|]; [|injection Hstage as _ <-; eauto].
        destruct (params_truthy (Some d)); [|injection Hstage as _ <-; eauto].
        unfold attempt in Hstage. cbn [world history] in Hstage.
        destruct (write_temp_script d jsx w) as [[p w1]|]; [|done].
        injection Hstage as _ <-. eauto. }
      unfold bind, act, effect, record_invocation, ret in Hrun.
      cbn [world history] in Hrun.
      destruct (popen_communicate _ w1) as [rc w2] eqn:Hpopen.
      cbn [world history] in Hrun. split; [done|].
      injection Hrun as Hok <-. cbn [world].
      destruct rc as [code|]; [|done].
      apply bool_decide_eq_true in Hok as ->. eauto.
    + unfold bind, record_invocation, ret. cbn [world history]. done.
Qed.

(** X20.  An exception raised while the temporary files are created,
    written or the script is read leaves [run_photoshop_script]: that part
    comes before the [try].  A process that cannot be started is inside
    the [try]: the call returns [False]. *)
Theorem run_photoshop_script_exceptions pp jsx d (w : W) hist :
  os_path_isfile jsx w = true →
  d ≠ ∅ →
  (write_temp_script d jsx w = None →
   run_photoshop_script pp jsx (Some d) (Io w hist) = None)
  ∧ (∀ script w1,
       write_temp_script d jsx w = Some (script, w1) →
       (∀ cmd, (popen_communicate cmd w1).1 = None) →
       ∃ s', run_photoshop_script pp jsx (Some d) (Io w hist)
             = Some (false, s')).
Proof.
  intros Hfile Hd. split; [by apply run_photoshop_script_temp_raises|].
  intros script w1 Hwrite Hpopen. unfold run_photoshop_script.
  unfold bind at 1. unfold is_valid_file, observe, act. cbn [world history].
  rewrite Hfile. cbn [negb params_truthy].
  rewrite bool_decide_eq_false_2 by done. cbn [negb].
  unfold bind at 1. unfold attempt. cbn [world history]. rewrite Hwrite.
  unfold bind, act, effect, record_invocation, ret. cbn [world history].
  match goal with
  | |- context [popen_communicate ?cmd w1] =>
      specialize (Hpopen cmd); destruct (popen_communicate cmd w1) as [rc w2]
  end.
  cbn [fst] in Hpopen. subst rc. cbn [world history]. by eexists.
Qed.

Lemma run_photoshop_script_darwin pp pp' jsx params (s : io W) :
  sys_platform = "darwin" →
  run_photoshop_script pp jsx params s = run_photoshop_script pp' jsx params s.
Proof.
  intros Hmac. unfold run_photoshop_script. rewrite Hmac.
  change (String.eqb "darwin" "darwin") with true. reflexivity.
Qed.

Lemma batch_loop_darwin pp pp' jsx out params input bsz starts :
  sys_platform = "darwin" →
  ∀ c (s : io W),
    batch_loop pp jsx out params input bsz starts c s
    = batch_loop pp' jsx out params input bsz starts c s.
Proof.
  intros Hmac. induction starts as [|i rest IH]; intros c s; [done|].
  cbn [batch_loop]. unfold bind.
  rewrite (run_photoshop_script_darwin pp pp') by done.
  repeat case_match; try done; apply IH.
Qed.

Lemma hdr_loop_darwin pp pp' jsx out rg sets :
  sys_platform = "darwin" →
  ∀ c (s : io W),
    hdr_loop pp jsx out rg sets c s = hdr_loop pp' jsx out rg sets c s.
Proof.
  intros Hmac. induction sets as [|g rest IH]; intros c s; [done|].
  destruct g as [|first more]; [done|].
  cbn [hdr_loop first_of]. rewrite !(bind_run _ _ _ _ _ (ret_run first s)).
  unfold bind.
  rewrite (run_photoshop_script_darwin pp pp') by done.
  repeat case_match; try done; apply IH.
Qed.

(** X8.  On macOS the Photoshop path plays no part: the script is opened
    through [osascript], so [batch_edit_photos] and [merge_hdr_photos]
    behave the same for every [photoshop_path]. *)
Theorem photoshop_path_unused_on_darwin pp pp' input sets out e1 e2 e3 rg
    (s : io W) :
  sys_platform = "darwin" →
  batch_edit_photos pp input out e1 e2 e3 s
  = batch_edit_photos pp' input out e1 e2 e3 s
  ∧ merge_hdr_photos pp sets out rg s = merge_hdr_photos pp' sets out rg s.
Proof.
  intros Hmac. split.
  - unfold batch_edit_photos, bind.
    destruct (ensure_dir out s) as [[[] s0]|]; [|done].
    by rewrite (batch_loop_darwin pp pp').
  - unfold merge_hdr_photos, bind.
    destruct (ensure_dir out s) as [[[] s0]|]; [|done].
    by rewrite (hdr_loop_darwin pp pp').
Qed.
End InvocationProperties.

Lemma run_photoshop_script_exceptions_witness :
  os_path_isfile "batch_edit.jsx" FullDisk = true
  ∧ ({["inputFiles" := VStrs seven_files]} : gmap string pyval) ≠ ∅
  ∧ write_temp_script {["inputFiles" := VStrs seven_files]} "batch_edit.jsx"
      FullDisk = None
  ∧ run_photoshop_script "photoshop" "batch_edit.jsx"
      (Some {["inputFiles" := VStrs seven_files]}) (Io FullDisk []) = None.
Proof.
  assert (({["inputFiles" := VStrs seven_files]} : gmap string pyval) ≠ ∅)
    as Hd by apply insert_non_empty.
  split; [reflexivity|]. split; [exact Hd|]. split; [reflexivity|].
  exact (proj1 (run_photoshop_script_exceptions "photoshop" "batch_edit.jsx"
                  {["inputFiles" := VStrs seven_files]} FullDisk []
                  eq_refl Hd) eq_refl).
Defined.

Lemma photoshop_path_unused_on_darwin_witness :
  sys_platform (W := mac_world) = "darwin"
  ∧ batch_edit_photos "/usr/bin/photoshop" seven_files "out" true true true
      (Io MacWorld [])
    = batch_edit_photos "/nowhere" seven_files "out" true true true
        (Io MacWorld [])
  ∧ merge_hdr_photos "/usr/bin/photoshop" [seven_files] "out" true
      (Io MacWorld [])
    = merge_hdr_photos "/nowhere" [seven_files] "out" true (Io MacWorld []).
Proof.
  split; [reflexivity|].
  exact (photoshop_path_unused_on_darwin "/usr/bin/photoshop" "/nowhere"
           seven_files [seven_files] "out" true true true true
           (Io MacWorld []) eq_refl).
Defined.

(** ** [find_photoshop_path] and [main] *)

Lemma photoshop_paths_truthy platform paths :
  PHOTOSHOP_PATHS !! platform = Some paths →
  Forall (λ p, str_truthy p = true) paths.
Proof.
  unfold PHOTOSHOP_PATHS. intros Hpaths.
  destruct (decide (platform = "linux")) as [->|?];
    [rewrite lookup_insert_eq in Hpaths|
     rewrite lookup_insert_ne in Hpaths by done;
     destruct (decide (platform = "win32")) as [->|?];
       [rewrite lookup_insert_eq in Hpaths|
        rewrite lookup_insert_ne in Hpaths by done;
        destruct (decide (platform = "darwin")) as [->|?];
          [rewrite lookup_insert_eq in Hpaths|
           rewrite lookup_insert_ne in Hpaths by done; done]]];
    injection Hpaths as <-; repeat constructor.
Qed.

Section EntryPointProperties.
Context {W : Type} `{!OS W} `{!FS W} {env : GlobEnv}.

Lemma first_existing_run paths (w : W) hist :
  ∃ r, first_existing paths (Io w hist) = Some (r, Io w hist)
       ∧ match r with
         | Some p =>
             ∃ before after,
               paths = before ++ p :: after
               ∧ os_path_exists p w = true
               ∧ Forall (λ q, os_path_exists q w = false) before
         | None => Forall (λ q, os_path_exists q w = false) paths
         end.
Proof.
  induction paths as [|path rest IH].
  { exists None. by split. }
  cbn [first_existing]. unfold bind, observe, act. cbn [world history].
  destruct (os_path_exists path w) eqn:Hthere.
  - exists (Some path). split; [done|]. by exists [], rest.
  - destruct IH as (r & -> & Hr). exists r. split; [done|].
    destruct r as [p|].
    + destruct Hr as (before & after & -> & Hp & Hbefore).
      exists (path :: before), after. split_and!; try done.
      by constructor.
    + by constructor.
Qed.

(** X9.  [find_photoshop_path] returns the first candidate listed for the
    platform that exists, leaving the world as it was; it returns [None]
    when the platform has no candidates listed or none of them exists.
    A path it returns is never the empty string. *)
Theorem find_photoshop_path_first (w : W) hist :
  ∃ r, find_photoshop_path (Io w hist) = Some (r, Io w hist)
       ∧ match r with
         | Some p =>
             str_truthy p = true
             ∧ ∃ before after,
                 PHOTOSHOP_PATHS !! sys_platform = Some (before ++ p :: after)
                 ∧ os_path_exists p w = true
                 ∧ Forall (λ q, os_path_exists q w = false) before
         | None =>
             PHOTOSHOP_PATHS !! sys_platform = None
             ∨ ∃ paths, PHOTOSHOP_PATHS !! sys_platform = Some paths
                        ∧ Forall (λ q, os_path_exists q w = false) paths
         end.
Proof.
  unfold find_photoshop_path.
  destruct (PHOTOSHOP_PATHS !! sys_platform) as [paths|] eqn:Hpaths.
  - destruct (first_existing_run paths w hist) as (r & Hrun & Hr).
    exists r. split; [done|]. destruct r as [p|].
    + destruct Hr as (before & after & -> & Hp & Hbefore).
      split; [|by eauto 6].
      pose proof (photoshop_paths_truthy _ _ Hpaths) as Ht.
      apply Forall_app in Ht as [_ Ht]. by apply Forall_cons in Ht as [? _].
    + right. eauto.
  - exists None. split; [done|]. by left.
Qed.

Lemma discover_run directory recursive (w : W) hist :
  discover directory recursive (Io w hist)
  = Some (get_image_files (scan_dir directory w) directory recursive,
          Io w hist).
Proof. reflexivity. Qed.

Lemma bracketed_sets_of_one (h : heap) l files :
  h !! l = Some (PyStrs files) → bracketed_sets_of h l 1 = Some [].
Proof.
  intros Hl. rewrite (bracketed_sets_of_pos h l files) by (done || lia).
  f_equal. apply retained_none.
  eapply Forall_impl; [apply chunks_sizes; lia|].
  intros g Hg. cbn beta in Hg. lia.
Qed.

(** The Photoshop path [main] settles on: the [--photoshop] argument when
    it is a non-empty string, else what [find_photoshop_path] returns. *)
Lemma main_photoshop_choice (args : cli_args) (w : W) hist :
  ∃ found,
    (match args_photoshop args with
     | Some p => if str_truthy p then ret (Some p) else find_photoshop_path
     | None => find_photoshop_path
     end) (Io w hist) = Some (found, Io w hist)
    ∧ (∀ p, found = Some p → str_truthy p = true)
    ∧ (∀ p, args_photoshop args = Some p → str_truthy p = true →
            found = Some p).
Proof.
  destruct (find_photoshop_path_first w hist) as (r & Hfind & Hr).
  destruct (args_photoshop args) as [p|] eqn:Hp.
  - destruct (str_truthy p) eqn:Ht.
    + exists (Some p). split_and!; [done|by intros ? [= <-]|by intros ? [= <-]].
    + exists r. split_and!; [done| |intros ? [= <-]; congruence].
      intros q ->. by destruct Hr.
  - exists r. split_and!; [done| |done]. intros q ->. by destruct Hr.
Qed.

(** X10.  Whenever [main] returns: if it stopped early (no subcommand,
    Photoshop not found, input directory missing, no image file, no
    bracketed set) it has handed nothing to Photoshop; if it reports
    completion the total is at least one and the success count lies
    between zero and the total; without a subcommand it printed the help;
    and a non-empty [--photoshop] argument is used as given, so the run
    did not end with Photoshop not found.  [main] returns whenever the
    output directory exists or can be created and the temporary files can
    be written. *)
Theorem main_outcome (args : cli_args) (s : io W) :
  (∀ o s',
     main args s = Some (o, s') →
     (early_exit o = true → history s' = history s)
     ∧ (∀ c t, o = BatchComplete c t ∨ o = HdrComplete c t →
               1 ≤ t ∧ 0 ≤ c ≤ t)
     ∧ (args_command args = None → o = PrintedHelp)
     ∧ (∀ p, args_photoshop args = Some p → str_truthy p = true →
             o ≠ PhotoshopNotFound))
  ∧ (temp_files_writable → (∀ w, can_ensure_dir (args_output args) w) →
     ∃ o s', main args s = Some (o, s')).
Proof.
  destruct s as [w hist]. unfold main. split.
  - intros o s' Hrun.
    destruct (args_command args) as [cmd|].
    2:{ injection Hrun as <- <-. split_and!; try done.
        intros c t [?|?]; done. }
    destruct (main_photoshop_choice args w hist)
      as (found & Hfound & Htruthy & Hgiven).
    erewrite bind_run in Hrun by exact Hfound.
    destruct found as [pp|].
    2:{ injection Hrun as <- <-. split_and!; try done.
        - intros c t [?|?]; done.
        - intros p Hp Ht. by specialize (Hgiven p Hp Ht). }
    rewrite (Htruthy pp eq_refl) in Hrun. cbn [negb] in Hrun.
    apply bind_inv in Hrun as (valid & s0 & Hvalid & Hrun).
    unfold is_valid_dir, observe, act in Hvalid. cbn [world history] in Hvalid.
    injection Hvalid as <- <-.
    destruct (os_path_isdir (args_input args) w); cbn [negb] in Hrun.
    2:{ injection Hrun as <- <-. split_and!; try done.
        intros c t [?|?]; done. }
    apply bind_inv in Hrun as (? & s0 & Hdir & Hrun).
    apply ensure_dir_inv in Hdir as [w0 ->]. cbn [history] in Hrun.
    destruct cmd.
    + (* batch *)
      erewrite bind_run in Hrun by apply discover_run.
      destruct (get_image_files _ _ _) as [|f files] eqn:Hfiles.
      { injection Hrun as <- <-. split_and!; try done.
        intros c t [?|?]; done. }
      apply bind_inv in Hrun as ([c1 t1] & s1 & Hbatch & Hret).
      injection Hret as <- <-. cbn [fst snd].
      apply batch_edit_photos_inv in Hbatch as (new & _ & Hin & Ht & Hc).
      split_and!; try done.
      intros c' t' [[= <- <-]|?]; [|done].
      pose proof (batch_ok_files_le (args_output args) new) as Hle.
      rewrite Hin, chunks_concat in Hle by lia. simpl length in *. lia.
    + (* hdr *)
      erewrite bind_run in Hrun by apply discover_run.
      destruct (get_image_files _ _ _) as [|f files] eqn:Hfiles.
      { injection Hrun as <- <-. split_and!; try done.
        intros c t [?|?]; done. }
      destruct (bracketed_sets_of [PyStrs (f :: files)] 0%nat
                  (args_bracket_count args)) as [gs|] eqn:Hgs; [|done].
      destruct gs as [|g gs].
      { injection Hrun as <- <-. split_and!; try done.
        intros c t [?|?]; done. }
      apply bind_inv in Hrun as ([c1 t1] & s1 & Hmerge & Hret).
      injection Hret as <- <-. cbn [fst snd].
      apply merge_hdr_photos_inv
        in Hmerge as (_ & new & _ & Hin & Ht & _ & Hc).
      split_and!; try done.
      intros c' t' [?|[= <- <-]]; [done|].
      pose proof (length_filter (λ u, hdr_unit_ok u = true) new) as Hle.
      assert (length (g :: gs) = length new) as Hlen
        by (by rewrite <- Hin, length_map).
      simpl length in *. lia.
  - intros Hw Hdirs.
    destruct (args_command args) as [cmd|]; [|by eexists _, _].
    destruct (main_photoshop_choice args w hist)
      as (found & Hfound & Htruthy & _).
    erewrite bind_run by exact Hfound.
    destruct found as [pp|]; [|by eexists _, _].
    rewrite (Htruthy pp eq_refl). cbn [negb].
    unfold bind at 1. unfold is_valid_dir, observe, act. cbn [world history].
    destruct (os_path_isdir (args_input args) w); cbn [negb];
      [|by eexists _, _].
    destruct (ensure_dir_returns (args_output args) (Io w hist) (Hdirs w))
      as [s0 Hs0].
    erewrite bind_run by exact Hs0. destruct s0 as [w0 hist0].
    destruct cmd.
    + erewrite bind_run by apply discover_run.
      destruct (get_image_files _ _ _) as [|f files]; [by eexists _, _|].
      destruct (batch_edit_photos_returns pp (f :: files) (args_output args)
                  (negb (args_no_exposure args)) (negb (args_no_lens args))
                  (negb (args_no_color args)) (Io w0 hist0) Hw (Hdirs w0))
        as (r & s1 & Hbatch).
      erewrite bind_run by exact Hbatch. by eexists _, _.
    + erewrite bind_run by apply discover_run.
      destruct (get_image_files _ _ _) as [|f files]; [by eexists _, _|].
      destruct (bracketed_sets_of [PyStrs (f :: files)] 0%nat
                  (args_bracket_count args)) as [gs|] eqn:Hgs.
      2:{ pose proof (bracketed_sets_of_grouping [PyStrs (f :: files)] 0%nat
                        (f :: files) (args_bracket_count args) eq_refl).
          congruence. }
      destruct gs as [|g gs]; [by eexists _, _|].
      pose proof (bracketed_sets_nonempty [PyStrs (f :: files)] 0%nat
                    (f :: files) _ _ eq_refl Hgs) as Hne.
      destruct (merge_hdr_photos_returns pp (g :: gs) (args_output args)
                  (negb (args_no_ghost args)) (Io w0 hist0) Hw (Hdirs w0) Hne)
        as (r & s1 & Hmerge).
      erewrite bind_run by exact Hmerge. by eexists _, _.
Qed.

(** X11.  With [--bracket-count 1] the [hdr] command never reaches
    Photoshop: every set would be a single file, so none is kept, and a
    run that returns has stopped early.  It returns whenever the output
    directory exists or can be created. *)
Theorem main_hdr_count_one (args : cli_args) (s : io W) :
  args_command args = Some Hdr →
  args_bracket_count args = 1 →
  (∀ o s', main args s = Some (o, s') →
           early_exit o = true ∧ history s' = history s)
  ∧ (can_ensure_dir (args_output args) (world s) →
     ∃ o s', main args s = Some (o, s')).
Proof.
  intros Hcmd HB. destruct s as [w hist].
  destruct (main_photoshop_choice args w hist) as (found & Hfound & Htruthy & _).
  split.
  - intros o s'. unfold main. rewrite Hcmd, HB.
    erewrite bind_run by exact Hfound.
    destruct found as [pp|]; [|by intros [= <- <-]].
    rewrite (Htruthy pp eq_refl). cbn [negb].
    unfold bind at 1. unfold is_valid_dir, observe, act. cbn [world history].
    destruct (os_path_isdir (args_input args) w); cbn [negb];
      [|by intros [= <- <-]].
    intros (? & s0 & Hdir & Hrun)%bind_inv.
    apply ensure_dir_inv in Hdir as [w0 ->]. cbn [history] in Hrun.
    erewrite bind_run in Hrun by apply discover_run.
    destruct (get_image_files _ _ _) as [|f files];
      [by injection Hrun as <- <-|].
    rewrite (bracketed_sets_of_one _ _ (f :: files)) in Hrun by done.
    by injection Hrun as <- <-.
  - intros Hdir. unfold main. rewrite Hcmd, HB.
    erewrite bind_run by exact Hfound.
    destruct found as [pp|]; [|by eexists _, _].
    rewrite (Htruthy pp eq_refl). cbn [negb].
    unfold bind at 1. unfold is_valid_dir, observe, act. cbn [world history].
    destruct (os_path_isdir (args_input args) w); cbn [negb];
      [|by eexists _, _].
    destruct (ensure_dir_returns (args_output args) (Io w hist) Hdir)
      as [s0 Hs0].
    erewrite bind_run by exact Hs0. destruct s0 as [w0 hist0].
    erewrite bind_run by apply discover_run.
    destruct (get_image_files _ _ _) as [|f files]; [by eexists _, _|].
    rewrite (bracketed_sets_of_one _ _ (f :: files)) by done.
    by eexists _, _.
Qed.

End EntryPointProperties.


Lemma main_outcome_witness :
  temp_files_writable (W := demo_world)
  ∧ (∀ w : demo_world, can_ensure_dir "out" w)
  ∧ ∃ o s',
      main (env := posix_env)
        (CliArgs (Some Batch) "out" "out" true false false false 3 false
           (Some "photoshop")) (Io idle_world []) = Some (o, s')
      ∧ (∀ c t, o = BatchComplete c t ∨ o = HdrComplete c t →
                1 ≤ t ∧ 0 ≤ c ≤ t).
Proof.
  assert (∀ w : demo_world, can_ensure_dir "out" w) as Hdirs
    by (intros w; right; by eexists).
  split; [exact demo_temp_files_writable|]. split; [exact Hdirs|].
  destruct (main_outcome (env := posix_env)
              (CliArgs (Some Batch) "out" "out" true false false false 3 false
                 (Some "photoshop")) (Io idle_world [])) as [Hinv Hret].
  destruct (Hret demo_temp_files_writable Hdirs) as (o & s' & Hrun).
  destruct (Hinv o s' Hrun) as (_ & Hcounts & _).
  exists o, s'. split; [exact Hrun|exact Hcounts].
Defined.

Lemma main_hdr_count_one_witness :
  args_command (CliArgs (Some Hdr) "out" "out" false false false false 1
                  false (Some "photoshop")) = Some Hdr
  ∧ args_bracket_count (CliArgs (Some Hdr) "out" "out" false false false false
                          1 false (Some "photoshop")) = 1
  ∧ can_ensure_dir "out" (world (Io idle_world []))
  ∧ ∃ o s', main (env := posix_env)
              (CliArgs (Some Hdr) "out" "out" false false false false 1
                 false (Some "photoshop")) (Io idle_world [])
            = Some (o, s')
            ∧ early_exit o = true
            ∧ history s' = history (Io idle_world []).
Proof.
  assert (can_ensure_dir "out" (world (Io idle_world []))) as Hdir
    by (left; vm_compute; reflexivity).
  split; [reflexivity|]. split; [reflexivity|]. split; [exact Hdir|].
  destruct (main_hdr_count_one (env := posix_env)
              (CliArgs (Some Hdr) "out" "out" false false false false 1 false
                 (Some "photoshop")) (Io idle_world []) eq_refl eq_refl)
    as [Hinv Hret].
  destruct (Hret Hdir) as (o & s' & Hrun).
  destruct (Hinv o s' Hrun) as [Hearly Hhist].
  exists o, s'. split; [exact Hrun|]. split; [exact Hearly|exact Hhist].
Defined.

Section EntryPointFlow.
Context {W : Type} `{!OS W} `{!FS W} {env : GlobEnv}.

(** X12.  When the [batch] command completes, Photoshop was handed the
    files [get_image_files] found in the input directory (recursively or
    not as asked), in sorted order, ten per invocation, and the reported
    total is their number. *)
Theorem main_batch_flow (args : cli_args) (w : W) hist c t s' :
  main args (Io w hist) = Some (BatchComplete c t, s') →
  ∃ w0 new,
    ensure_dir (args_output args) (Io w hist) = Some (tt, Io w0 hist)
    ∧ history s' = hist ++ new
    ∧ map input_files_of new
      = chunks 10 (get_image_files (scan_dir (args_input args) w0)
                     (args_input args) (args_recursive args))
    ∧ t = Z.of_nat (length (get_image_files (scan_dir (args_input args) w0)
                              (args_input args) (args_recursive args))).
Proof.
  unfold main. destruct (args_command args) as [cmd|]; [|done].
  destruct (main_photoshop_choice args w hist) as (found & Hfound & Htruthy & _).
  erewrite bind_run by exact Hfound.
  destruct found as [pp|]; [|done].
  rewrite (Htruthy pp eq_refl). cbn [negb].
  unfold bind at 1. unfold is_valid_dir, observe, act. cbn [world history].
  destruct (os_path_isdir (args_input args) w); cbn [negb]; [|done].
  intros ([] & s0 & Hdir & Hrun)%bind_inv.
  destruct (ensure_dir_inv _ _ _ _ Hdir) as [w0 ->]. cbn [history] in *.
  destruct cmd.
  - erewrite bind_run in Hrun by apply discover_run.
    destruct (get_image_files _ _ _) as [|f files] eqn:Hfiles; [done|].
    apply bind_inv in Hrun as ([c1 t1] & s1 & Hbatch & Hret).
    injection Hret as <- <- <-.
    apply batch_edit_photos_inv in Hbatch as (new & Hhist & Hin & Ht & _).
    exists w0, new. rewrite Hfiles. split_and!; done.
  - erewrite bind_run in Hrun by apply discover_run.
    destruct (get_image_files _ _ _) as [|f files]; [done|].
    destruct (bracketed_sets_of _ _ _) as [[|g gs]|]; [done| |done].
    unfold bind in Hrun.
    destruct (merge_hdr_photos _ _ _ _ _) as [[? ?]|]; done.
Qed.

(** X13.  When the [hdr] command completes, the files were found without
    recursion, grouped by [identify_bracketed_sets] with the requested
    bracket count, and Photoshop was handed exactly those sets, one per
    invocation and in order; the reported total is their number. *)
Theorem main_hdr_flow (args : cli_args) (w : W) hist c t s' :
  main args (Io w hist) = Some (HdrComplete c t, s') →
  ∃ w0 gs new,
    ensure_dir (args_output args) (Io w hist) = Some (tt, Io w0 hist)
    ∧ bracketed_sets_of
        [PyStrs (get_image_files (scan_dir (args_input args) w0)
                   (args_input args) false)] 0%nat (args_bracket_count args)
      = Some gs
    ∧ history s' = hist ++ new
    ∧ map input_files_of new = gs
    ∧ t = Z.of_nat (length gs).
Proof.
  unfold main. destruct (args_command args) as [cmd|]; [|done].
  destruct (main_photoshop_choice args w hist) as (found & Hfound & Htruthy & _).
  erewrite bind_run by exact Hfound.
  destruct found as [pp|]; [|done].
  rewrite (Htruthy pp eq_refl). cbn [negb].
  unfold bind at 1. unfold is_valid_dir, observe, act. cbn [world history].
  destruct (os_path_isdir (args_input args) w); cbn [negb]; [|done].
  intros ([] & s0 & Hdir & Hrun)%bind_inv.
  destruct (ensure_dir_inv _ _ _ _ Hdir) as [w0 ->]. cbn [history] in *.
  destruct cmd.
  - erewrite bind_run in Hrun by apply discover_run.
    destruct (get_image_files _ _ _) as [|f files]; [done|].
    unfold bind in Hrun.
    destruct (batch_edit_photos _ _ _ _ _ _ _) as [[? ?]|]; done.
  - erewrite bind_run in Hrun by apply discover_run.
    destruct (get_image_files _ _ _) as [|f files] eqn:Hfiles; [done|].
    destruct (bracketed_sets_of _ _ _) as [[|g gs]|] eqn:Hgs; [done| |done].
    apply bind_inv in Hrun as ([c1 t1] & s1 & Hmerge & Hret).
    injection Hret as <- <- <-.
    apply merge_hdr_photos_inv
      in Hmerge as (_ & new & Hhist & Hin & Ht & _ & _).
    exists w0, (g :: gs), new. rewrite Hfiles. split_and!; done.
Qed.
End EntryPointFlow.

Lemma main_batch_flow_witness :
  ∃ s',
    main (env := posix_env)
      (CliArgs (Some Batch) "out" "out" true false false false 3 false
         (Some "photoshop")) (Io idle_world [])
    = Some (BatchComplete 0 6, s')
    ∧ ∃ w0 new,
        ensure_dir "out" (Io idle_world []) = Some (tt, Io w0 [])
        ∧ history s' = [] ++ new
        ∧ map input_files_of new
          = chunks 10 (get_image_files (env := posix_env)
                         (scan_dir "out" w0) "out" true)
        ∧ 6 = Z.of_nat (length (get_image_files (env := posix_env)
                                  (scan_dir "out" w0) "out" true)).
Proof.
  eexists. split; [vm_compute; reflexivity|].
  eapply (main_batch_flow (env := posix_env)
            (CliArgs (Some Batch) "out" "out" true false false false 3 false
               (Some "photoshop")) idle_world [] 0 6).
  vm_compute. reflexivity.
Defined.

Lemma main_hdr_flow_witness :
  ∃ s',
    main (env := posix_env)
      (CliArgs (Some Hdr) "out" "out" false false false false 2 false
         (Some "photoshop")) (Io idle_world [])
    = Some (HdrComplete 0 1, s')
    ∧ ∃ w0 gs new,
        ensure_dir "out" (Io idle_world []) = Some (tt, Io w0 [])
        ∧ bracketed_sets_of
            [PyStrs (get_image_files (env := posix_env)
                       (scan_dir "out" w0) "out" false)] 0%nat 2
          = Some gs
        ∧ history s' = [] ++ new
        ∧ map input_files_of new = gs
        ∧ 1 = Z.of_nat (length gs).
Proof.
  eexists. split; [vm_compute; reflexivity|].
  eapply (main_hdr_flow (env := posix_env)
            (CliArgs (Some Hdr) "out" "out" false false false false 2 false
               (Some "photoshop")) idle_world [] 0 1).
  vm_compute. reflexivity.
Defined.

(** ** What [get_image_files] finds *)

Lemma glob_suffixes_shape x :
  x ∈ glob_suffixes →
  cut_last "/" (String "*" x) = None ∧ no_star x = true.
Proof.
  revert x. apply Forall_forall.
  unfold glob_suffixes, SUPPORTED_IMAGE_FORMATS. cbn [flat_map app].
  repeat (constructor; [split; reflexivity|]). constructor.
Qed.

Lemma globbed_name_iff name :
  globbed_name name = true
  ↔ startswith name "." = false
    ∧ ∃ x, x ∈ glob_suffixes ∧ endswith name x = true.
Proof.
  unfold globbed_name. rewrite andb_true_iff, negb_true_iff, existsb_exists.
  split.
  - intros [Hh (ext & Hext%list_elem_of_In & He)]. split; [done|].
    apply orb_true_iff in He as [He|He].
    + exists ext. split; [|done]. apply elem_of_flat_map. exists ext.
      split; [done|]. apply list_elem_of_here.
    + exists (upper ext). split; [|done]. apply elem_of_flat_map. exists ext.
      split; [done|]. apply list_elem_of_further, list_elem_of_here.
  - intros [Hh (x & Hx & He)]. split; [done|].
    apply elem_of_flat_map in Hx as (ext & Hext & Hx).
    exists ext. split; [by apply list_elem_of_In|].
    apply elem_of_cons in Hx as [->|Hx]; [by rewrite He|].
    apply list_elem_of_singleton in Hx as ->. rewrite He. apply orb_true_r.
Qed.

Lemma walk_files top t r name :
  (∃ ds fs, (r, ds, fs) ∈ walk top t ∧ name ∈ fs) ↔ file_at top t r name.
Proof.
  split.
  - revert top. induction t as [|es IH] using node_induction;
      intros top (ds & fs & Hin & Hname); cbn [walk] in Hin.
    { by apply elem_of_nil in Hin. }
    apply elem_of_cons in Hin as [[= -> -> ->]|Hin].
    + apply list_elem_of_fmap in Hname as ([n sub] & -> & He).
      apply list_elem_of_filter in He as [Hd He]. cbn [snd] in Hd.
      destruct sub; [|done]. by apply file_here.
    + apply elem_of_flat_map in Hin as ([dname sub] & He & Hin).
      rewrite Forall_forall in IH.
      apply (file_below top es dname sub); [done|].
      apply (IH (dname, sub) He). eauto.
  - induction 1 as [top es name He|top es dname sub r name He _ IH].
    + eexists _, _. split; [apply list_elem_of_here|].
      apply list_elem_of_fmap. exists (name, File). split; [done|].
      by apply list_elem_of_filter.
    + destruct IH as (ds & fs & Hin & Hname). exists ds, fs. split; [|done].
      cbn [walk]. apply list_elem_of_further, elem_of_flat_map.
      by exists (dname, sub).
Qed.

Lemma suffixes_comparable u v x y :
  u +:+ x = v +:+ y → endswith x y = true ∨ endswith y x = true.
Proof.
  revert v. induction u as [|a u IH]; intros v Huv.
  - left. apply endswith_iff. exists v. by rewrite app_nil_str in Huv.
  - destruct v as [|b v].
    + right. apply endswith_iff. exists (String a u). by rewrite app_nil_str in Huv.
    + rewrite !app_cons_str in Huv. injection Huv as _ Huv. by eapply IH.
Qed.

Lemma glob_suffixes_exclusive x y :
  x ∈ glob_suffixes → y ∈ glob_suffixes → endswith x y = true → x = y.
Proof.
  revert x y.
  assert (Forall (λ x, Forall (λ y, endswith x y = true → x = y) glob_suffixes)
            glob_suffixes) as Hall.
  { apply (bool_decide_unpack _). vm_compute. exact I. }
  intros x y Hx Hy. rewrite Forall_forall in Hall.
  specialize (Hall x Hx). rewrite Forall_forall in Hall. by apply Hall.
Qed.

Lemma NoDup_flat_map {A B} (f : A → list B) (l : list A) :
  (∀ x1 x2 y, x1 ∈ l → x2 ∈ l → y ∈ f x1 → y ∈ f x2 → x1 = x2) →
  (∀ x, x ∈ l → NoDup (f x)) → NoDup l → NoDup (flat_map f l).
Proof.
  intros Hdis Hf Hl. induction Hl as [|x l Hx Hl IH]; [constructor|].
  cbn [flat_map]. apply NoDup_app. split_and!.
  - apply Hf, list_elem_of_here.
  - intros y Hy (x' & Hx' & Hy')%elem_of_flat_map.
    assert (x = x') as <-.
    { apply (Hdis x x' y); try done;
        [apply list_elem_of_here|by apply list_elem_of_further]. }
    done.
  - apply IH.
    + intros x1 x2 y ? ?. apply Hdis; by apply list_elem_of_further.
    + intros x' ?. by apply Hf, list_elem_of_further.
Qed.

Lemma join_inj d name name' :
  startswith name "/" = false → startswith name' "/" = false →
  join d name = join d name' → name = name'.
Proof.
  intros Hn Hn'. rewrite !join_relative by done. apply (inj _).
Qed.

Lemma rstrip_sep_app d :
  d ≠ EmptyString → endswith d "/" = false → rstrip_sep (d +:+ "/") = d.
Proof.
  induction d as [|a d IH]; intros Hne Hend; [done|].
  rewrite app_cons_str. cbn [rstrip_sep].
  rewrite endswith_cons in Hend. apply orb_false_iff in Hend as [Hone Hend].
  destruct d as [|b d].
  - rewrite app_nil_str. cbn [rstrip_sep]. change (String.eqb "" "") with true.
    change (Ascii.eqb "/" "/") with true. cbn [andb].
    change (String.eqb "" "") with true. cbn [andb].
    destruct (Ascii.eqb a "/") eqn:Ha; [|done].
    apply Ascii.eqb_eq in Ha as ->. done.
  - rewrite IH by done. done.
Qed.

Lemma glob_dirname_no_slash d :
  d ≠ EmptyString → endswith d "/" = false → glob_dirname d = d.
Proof.
  intros Hne Hend. unfold glob_dirname.
  rewrite join_relative by done. unfold join_prefix.
  rewrite (proj2 (String.eqb_neq d EmptyString)) by done.
  rewrite Hend. cbn [orb]. unfold split.
  rewrite app_assoc_str. change ("/" +:+ "*") with (String "/" "*").
  rewrite cut_last_app_sep by done.
  rewrite rstrip_sep_app by done.
  by rewrite (proj2 (String.eqb_neq d EmptyString)) by done.
Qed.

Lemma globbed_supported name :
  globbed_name name = true → supported_name name = true.
Proof.
  intros [_ (x & Hx & He)]%globbed_name_iff.
  apply existsb_exists.
  apply elem_of_flat_map in Hx as (ext & Hext & Hx).
  exists ext. split; [by apply list_elem_of_In|].
  destruct (supported_lower ext Hext) as [Hlo Hup].
  apply endswith_lower in He.
  apply elem_of_cons in Hx as [->|Hx]; [by rewrite Hlo in He|].
  apply list_elem_of_singleton in Hx as ->. by rewrite Hup in He.
Qed.

Section DiscoveryResults.
Context {env : GlobEnv}.

(** One [glob.glob] call of the non-recursive branch, where names are
    compared as they are written and the directory part is taken as it
    stands: the listed names that are not hidden and end with the suffix,
    joined to the directory. *)
Lemma glob_suffix root d x :
  fnmatch_folds_case = false →
  has_magic d = false →
  x ∈ glob_suffixes →
  glob root (join d ("*" +:+ x))
  = map (join (glob_dirname d))
        (filter (λ name, negb (startswith name ".") && endswith name x = true)
                (listdir root)).
Proof.
  intros Hcase Hplain Hx. destruct (glob_suffixes_shape x Hx) as [Hcut Hstar].
  unfold glob. change ("*" +:+ x) with (String "*" x).
  rewrite split_join by done.
  rewrite (has_magic_glob_dirname d Hplain), andb_false_r.
  cbn [flat_map fst snd]. rewrite app_nil_r. f_equal.
  unfold glob1, fnmatch_filter, normcase. rewrite Hcase.
  change (startswith (String "*" x) ".") with false. cbv iota.
  rewrite list_filter_filter. apply list_filter_iff. intros name.
  rewrite fnmatch_star by done.
  rewrite andb_true_iff, negb_true_iff. tauto.
Qed.

Lemma flat_matches_suffixes root d :
  flat_map (λ ext,
      glob root (join d ("*" +:+ ext)) ++ glob root (join d ("*" +:+ upper ext)))
    SUPPORTED_IMAGE_FORMATS
  = flat_map (λ x, glob root (join d ("*" +:+ x))) glob_suffixes.
Proof.
  unfold glob_suffixes. rewrite flat_map_flat_map.
  apply flat_map_ext. intros ext. cbn [flat_map]. by rewrite app_nil_r.
Qed.

Lemma flat_discovery_mem (root : node) (directory p : string) :
  fnmatch_folds_case = false →
  has_magic directory = false →
  p ∈ get_image_files root directory false
  ↔ ∃ name, name ∈ listdir root ∧ globbed_name name = true
            ∧ p = join (glob_dirname directory) name.
Proof.
  intros Hcase Hplain. unfold get_image_files.
  rewrite elem_of_sorted, flat_matches_suffixes, elem_of_flat_map. split.
  - intros (x & Hx & Hp). rewrite glob_suffix in Hp by done.
    apply elem_of_map in Hp as (name & -> & Hname).
    apply list_elem_of_filter in Hname as [Hm Hname].
    apply andb_true_iff in Hm as [Hh He]. apply negb_true_iff in Hh.
    exists name. split_and!; try done. apply globbed_name_iff. eauto.
  - intros (name & Hname & Hg & ->).
    apply globbed_name_iff in Hg as [Hh (x & Hx & He)].
    exists x. split; [done|]. rewrite glob_suffix by done.
    apply elem_of_map. exists name. split; [done|].
    apply list_elem_of_filter. split; [|done].
    by rewrite Hh, He.
Qed.

(** X14.  Where file names are compared as they are written (any host but
    Windows) and for a directory path that holds no glob metacharacter:
    without [recursive], the result holds exactly the entries of the
    directory, of whatever kind, whose name does not start with a dot and
    ends with a supported extension written entirely in lower case or
    entirely in upper case; it is empty exactly when no entry is of that
    form. *)
Theorem flat_discovery_exact (root : node) (directory : string) :
  fnmatch_folds_case = false →
  has_magic directory = false →
  (∀ p, p ∈ get_image_files root directory false
        ↔ ∃ name, name ∈ listdir root ∧ globbed_name name = true
                  ∧ p = join (glob_dirname directory) name)
  ∧ (get_image_files root directory false = []
     ↔ Forall (λ name, globbed_name name = false) (listdir root)).
Proof.
  intros Hcase Hplain.
  split; [intros p; by apply flat_discovery_mem|]. split.
  - intros Hnil. apply Forall_forall. intros name Hname.
    destruct (globbed_name name) eqn:Hg; [|done].
    assert (join (glob_dirname directory) name
            ∈ get_image_files root directory false) as Hin
      by (apply flat_discovery_mem; eauto).
    rewrite Hnil in Hin. by apply elem_of_nil in Hin.
  - intros Hall.
    destruct (get_image_files root directory false) as [|p ps] eqn:Hres;
      [done|].
    assert (p ∈ get_image_files root directory false) as Hin
      by (rewrite Hres; apply list_elem_of_here).
    apply flat_discovery_mem in Hin as (name & Hname & Hg & _); [|done..].
    rewrite Forall_forall in Hall. specialize (Hall name Hname). congruence.
Qed.

(** X15.  With [recursive], the result holds exactly the regular files
    found at any depth below the directory whose lower-cased name ends with
    a supported extension, each as its directory's path joined with its
    name; for the empty directory path it holds nothing. *)
Theorem recursive_discovery_exact (root : node) (directory p : string) :
  p ∈ get_image_files root directory true
  ↔ directory ≠ EmptyString
    ∧ ∃ r name, file_at directory root r name
                ∧ supported_name name = true
                ∧ p = join r name.
Proof.
  unfold get_image_files, os_walk. rewrite elem_of_sorted.
  destruct (String.eqb directory EmptyString) eqn:Hd.
  - apply eqb_true_eq in Hd. split.
    + by intros ?%elem_of_nil.
    + by intros [? _].
  - apply String.eqb_neq in Hd. rewrite elem_of_flat_map. split.
    + intros ([[r ds] fs] & Hin & Hp). split; [done|].
      apply elem_of_map in Hp as (name & -> & Hname).
      apply list_elem_of_filter in Hname as [Hm Hname].
      exists r, name. split_and!; try done. apply walk_files. eauto.
    + intros (_ & r & name & Hat & Hm & ->).
      apply walk_files in Hat as (ds & fs & Hin & Hname).
      exists (r, ds, fs). split; [done|].
      apply elem_of_map. exists name. split; [done|].
      by apply list_elem_of_filter.
Qed.

(** X16.  Where file names are compared as they are written (any host but
    Windows) and for a directory path that holds no glob metacharacter:
    without [recursive], no path is returned twice, provided the directory
    lists no name twice and no listed name starts with a slash: the
    sixteen patterns never match the same name. *)
Theorem flat_discovery_no_repeats (root : node) (directory : string) :
  fnmatch_folds_case = false →
  has_magic directory = false →
  NoDup (listdir root) →
  Forall (λ name, startswith name "/" = false) (listdir root) →
  NoDup (get_image_files root directory false).
Proof.
  intros Hcase Hplain Hnd Hrel. rewrite Forall_forall in Hrel.
  unfold get_image_files. rewrite sorted_perm, flat_matches_suffixes.
  apply NoDup_flat_map.
  - intros x1 x2 p Hx1 Hx2 Hp1 Hp2.
    rewrite glob_suffix in Hp1, Hp2 by done.
    apply elem_of_map in Hp1 as (n1 & -> & Hn1).
    apply elem_of_map in Hp2 as (n2 & Heq & Hn2).
    apply list_elem_of_filter in Hn1 as [[_ He1]%andb_true_iff Hn1].
    apply list_elem_of_filter in Hn2 as [[_ He2]%andb_true_iff Hn2].
    apply join_inj in Heq as ->; [|by apply Hrel..].
    apply endswith_iff in He1 as [u Hu]. apply endswith_iff in He2 as [v Hv].
    destruct (suffixes_comparable u v x1 x2) as [H12|H21]; [congruence|..].
    + by apply glob_suffixes_exclusive.
    + symmetry. by apply glob_suffixes_exclusive.
  - intros x Hx. rewrite glob_suffix by done.
    apply (NoDup_fmap_2_strong (join (glob_dirname directory))).
    + intros n1 n2 [_ Hn1]%list_elem_of_filter [_ Hn2]%list_elem_of_filter.
      apply join_inj; by apply Hrel.
    + by apply NoDup_filter.
  - apply (bool_decide_unpack _). vm_compute. exact I.
Qed.

(** X17.  For a directory path that is not empty, does not end with a
    slash and holds no glob metacharacter, and a listing in which no name
    starts with a slash: when the search without [recursive] returns the
    path of a regular file of the directory, the search with [recursive]
    returns that path too. *)
Theorem flat_files_found_recursively (root : node) (directory name : string) :
  has_magic directory = false →
  directory ≠ EmptyString →
  endswith directory "/" = false →
  Forall (λ name, startswith name "/" = false) (listdir root) →
  (name, File) ∈ entries_of root →
  join directory name ∈ get_image_files root directory false →
  join directory name ∈ get_image_files root directory true.
Proof.
  intros Hplain Hne Hend Hrel Hentry Hflat. rewrite Forall_forall in Hrel.
  assert (name ∈ listdir root) as Hlisted.
  { unfold listdir. apply list_elem_of_fmap. by exists (name, File). }
  destruct (flat_discovery_inv root directory _ Hflat)
    as (dir & n & name' & ext & Heq & Hname' & Hext & He & Hdir).
  destruct (Hdir (has_magic_glob_dirname _ Hplain)) as [-> ->].
  rewrite glob_dirname_no_slash in Heq by done.
  apply join_inj in Heq as ->; [|by apply Hrel..].
  assert (file_at directory root directory name') as Hat.
  { destruct root as [|es]; [by apply elem_of_nil in Hentry|].
    by apply file_here. }
  apply walk_files in Hat as (ds & fs & Hin & Hfs).
  unfold get_image_files, os_walk.
  rewrite (proj2 (String.eqb_neq directory EmptyString)) by done.
  apply elem_of_sorted, elem_of_flat_map. exists (directory, ds, fs).
  split; [done|]. apply elem_of_map. exists name'. split; [done|].
  apply list_elem_of_filter. split; [|done].
  apply existsb_exists. exists ext. split; [by apply list_elem_of_In|done].
Qed.
End DiscoveryResults.

Lemma discovery_sound_witness :
  has_magic "shoot" = false
  ∧ ∀ p, p ∈ get_image_files (env := posix_env) shoot_dir "shoot" false →
      ∃ name, name ∈ listdir shoot_dir ∧ p = join (glob_dirname "shoot") name.
Proof.
  split; [reflexivity|].
  exact (proj2 (proj2 (discovery_sound (env := posix_env) shoot_dir "shoot"
                         false)) eq_refl).
Defined.

Lemma flat_discovery_exact_witness :
  fnmatch_folds_case (GlobEnv := posix_env) = false
  ∧ has_magic "shoot" = false
  ∧ (get_image_files (env := posix_env) shoot_dir "shoot" false = []
     ↔ Forall (λ name, globbed_name name = false) (listdir shoot_dir)).
Proof.
  split; [reflexivity|]. split; [reflexivity|].
  exact (proj2 (flat_discovery_exact (env := posix_env) shoot_dir "shoot"
                  eq_refl eq_refl)).
Defined.

Lemma flat_discovery_no_repeats_witness :
  fnmatch_folds_case (GlobEnv := posix_env) = false
  ∧ has_magic "shoot" = false
  ∧ NoDup (listdir shoot_dir)
  ∧ Forall (λ name, startswith name "/" = false) (listdir shoot_dir)
  ∧ NoDup (get_image_files (env := posix_env) shoot_dir "shoot" false).
Proof.
  assert (NoDup (listdir shoot_dir)) as Hnd
    by (apply (bool_decide_unpack _); vm_compute; exact I).
  assert (Forall (λ name, startswith name "/" = false) (listdir shoot_dir))
    as Hrel by (repeat constructor).
  split; [reflexivity|]. split; [reflexivity|].
  split; [exact Hnd|]. split; [exact Hrel|].
  exact (flat_discovery_no_repeats (env := posix_env) shoot_dir "shoot"
           eq_refl eq_refl Hnd Hrel).
Defined.

Lemma flat_files_found_recursively_witness :
  has_magic "shoot" = false
  ∧ "shoot" ≠ EmptyString
  ∧ endswith "shoot" "/" = false
  ∧ Forall (λ name, startswith name "/" = false) (listdir shoot_dir)
  ∧ ("IMG_001.jpg", File) ∈ entries_of shoot_dir
  ∧ join "shoot" "IMG_001.jpg"
    ∈ get_image_files (env := posix_env) shoot_dir "shoot" false
  ∧ join "shoot" "IMG_001.jpg"
    ∈ get_image_files (env := posix_env) shoot_dir "shoot" true.
Proof.
  assert ("shoot" ≠ EmptyString) as Hne by discriminate.
  assert (Forall (λ name, startswith name "/" = false) (listdir shoot_dir))
    as Hrel by (repeat constructor).
  assert (("IMG_001.jpg", File) ∈ entries_of shoot_dir) as Hentry
    by (cbn [entries_of shoot_dir];
        repeat first [apply list_elem_of_here|apply list_elem_of_further]).
  assert (join "shoot" "IMG_001.jpg"
          ∈ get_image_files (env := posix_env) shoot_dir "shoot" false)
    as Hflat
    by (vm_compute; repeat first [apply list_elem_of_here
                                 |apply list_elem_of_further]).
  split; [reflexivity|]. split; [exact Hne|]. split; [reflexivity|].
  split; [exact Hrel|]. split; [exact Hentry|]. split; [exact Hflat|].
  exact (flat_files_found_recursively (env := posix_env) shoot_dir "shoot"
           "IMG_001.jpg" eq_refl Hne eq_refl Hrel Hentry Hflat).
Defined.
